(** * linalg.c: a dense matrix library over C doubles

    A shallow embedding of [linalg.c] and the properties its
    specification states about it.

    Modelling choices.
    - [double] is IEEE 754 binary64, i.e. Rocq's primitive [float]; [+], [*],
      [<] and [sqrt] are the correctly rounded operations of the standard.
      There is one NaN: the sign and the payload of a NaN, which the standard
      leaves open for the result of an operation, are not modelled.
    - A [Matrix*] is either [NULL] or the address of a [Matrix] struct that
      lives in a heap (a finite map from addresses to structs).  Two handles
      may be equal, so [Matrix_add (A, A)] is covered.
    - The [double**] field [vals] is either [NULL] or a block of row blocks,
      kept inside the struct that owns it.  No function of the library ever
      copies that pointer into a second struct.
    - [errno] is a global integer next to the heap.
    - What ISO C leaves undefined (a read through [NULL] or through a dangling
      handle, an index beyond a block) is the outcome [None] of a computation.
    - Memory is not bounded: [malloc] and [calloc] always succeed, as the
      source assumes by never testing their results, and a [size_t] is a
      natural number.
    - Every loop of the source counts with an [int] against a [size_t]
      bound.  The counter is incremented after each pass, the last one
      included, and incrementing [INT_MAX] is undefined: a loop whose bound
      exceeds [INT_MAX] has the outcome [None].
    - [pow] of [<math.h>] is a parameter of [Matrix_l2], in two parts: the
      double it returns (the C standard does not fix its rounding) and the
      value it stores in [errno], if any (a range error may set [ERANGE]).
      It has no access to the heap.
    - [sqrt] of [<math.h>] returns the correctly rounded root and, for an
      argument below zero, stores [EDOM] in [errno]. *)

From Stdlib Require Import ZArith Floats.
From stdpp Require Import base tactics option list gmap.

Open Scope float_scope.

(** ** Data model *)

(** Modelled from the spec: the [Matrix] struct, declared in [linalg.h], which
    is not among the sources.  Its attributes are the row count [nrows], the
    column count [ncols] and the row-pointer storage [vals], which is [NULL]
    ([None]) in the empty state; [linalg.c] uses these three fields, the
    counts as [size_t] and [vals] as [double**]. *)
Record Matrix : Type := mkMatrix {
  nrows : nat;
  ncols : nat;
  vals : option (list (list float))
}.

Definition loc : Type := positive.

(** [Matrix*]: [None] is the [NULL] pointer. *)
Definition ptr : Type := option loc.

Record state : Type := mkState {
  heap : gmap loc Matrix;
  errno : Z
}.

(** [EINVAL] of [<errno.h>] (its value on Linux; only that [Matrix_get] and
    [Matrix_l1] store this constant matters below). *)
Definition EINVAL : Z := 22.

(** [EDOM] of [<errno.h>] (its value on Linux), which [sqrt] stores on a
    domain error. *)
Definition EDOM : Z := 33.

(** ** Computations: state passing, [None] for undefined behaviour *)

Definition comp (A : Type) : Type := state → option (A * state).

Definition ret {A} (a : A) : comp A := λ s, Some (a, s).

Definition bind {A B} (c : comp A) (k : A → comp B) : comp B :=
  λ s, match c s with
       | Some (a, s') => k a s'
       | None => None
       end.

Definition undef {A} : comp A := λ _, None.

Declare Scope comp_scope.
Delimit Scope comp_scope with comp.
Notation "'let*' x := c 'in' k" := (bind c (λ x, k))
  (at level 10, x binder, c at level 100, k at level 200) : comp_scope.
Notation "c ;;; k" := (bind c (λ _, k))
  (at level 100, k at level 200, right associativity) : comp_scope.
Open Scope comp_scope.

(** [INT_MAX] of [<limits.h>], for the 32-bit [int] of the usual targets. *)
Definition INT_MAX : Z := 2147483647.

(** [for (int i = start; i < start + count; i++) a = body (i, a);] where [a]
    stands for the local variables the body updates.  After each pass comes
    [i++], which is undefined when [i] is [INT_MAX]. *)
Fixpoint for_loop {A} (start count : nat) (body : nat → A → comp A) (a : A)
  : comp A :=
  match count with
  | O => ret a
  | S count' =>
      let* a' := body start a in
      if decide (Z.of_nat start < INT_MAX)%Z
      then for_loop (S start) count' body a'
      else undef
  end.

(** [for (int i = 0; i < n; i++) body (i);] *)
Definition for_int (n : nat) (body : nat → comp unit) : comp unit :=
  for_loop 0 n (λ i _, body i) tt.

(** ** Memory accesses *)

(** [*M] for a handle that is not [NULL]. *)
Definition load (l : loc) : comp Matrix :=
  λ s, match heap s !! l with
       | Some m => Some (m, s)
       | None => None
       end.

Definition store (l : loc) (f : Matrix → Matrix) : comp unit :=
  λ s, match heap s !! l with
       | Some m => Some (tt, mkState (<[l := f m]> (heap s)) (errno s))
       | None => None
       end.

Definition set_nrows (n : nat) (m : Matrix) : Matrix :=
  mkMatrix n (ncols m) (vals m).
Definition set_ncols (n : nat) (m : Matrix) : Matrix :=
  mkMatrix (nrows m) n (vals m).
Definition set_vals (v : option (list (list float))) (m : Matrix) : Matrix :=
  mkMatrix (nrows m) (ncols m) v.

Definition set_errno (e : Z) : comp unit :=
  λ s, Some (tt, mkState (heap s) e).

(** [malloc (sizeof (Matrix))]: a fresh address; the fields are indeterminate
    until written (here: some fixed content nobody reads). *)
Definition malloc_Matrix : comp loc :=
  λ s, let l := fresh (dom (heap s)) in
       Some (l, mkState (<[l := mkMatrix 0 0 None]> (heap s)) (errno s)).

(** [free (M)] *)
Definition free_Matrix (l : loc) : comp unit :=
  λ s, match heap s !! l with
       | Some _ => Some (tt, mkState (delete l (heap s)) (errno s))
       | None => None
       end.

(** [rows[i][j]] of a block of rows. *)
Definition entry (rows : list (list float)) (i j : nat) : option float :=
  match rows !! i with
  | Some row => row !! j
  | None => None
  end.

(** [M->vals[i][j]] as an rvalue. *)
Definition read_val (l : loc) (i j : nat) : comp float :=
  let* m := load l in
  match vals m with
  | Some rows =>
      match entry rows i j with
      | Some x => ret x
      | None => undef
      end
  | None => undef
  end.

(** [M->vals[i][j] = v] *)
Definition write_val (l : loc) (i j : nat) (v : float) : comp unit :=
  let* m := load l in
  match vals m with
  | Some rows =>
      match rows !! i with
      | Some row =>
          if decide (j < length row)%nat
          then store l (set_vals (Some (<[i := <[j := v]> row]> rows)))
          else undef
      | None => undef
      end
  | None => undef
  end.

(** [M->vals[i] = calloc (ncols, sizeof (double))]: row [i] becomes a block of
    [ncols] zeros. *)
Definition calloc_row (l : loc) (i ncols : nat) : comp unit :=
  let* m := load l in
  match vals m with
  | Some rows =>
      if decide (i < length rows)%nat
      then store l (set_vals (Some (<[i := replicate ncols 0]> rows)))
      else undef
  | None => undef
  end.

(** [free (M->vals[i])]: the row pointer must be there to be read. *)
Definition free_row (l : loc) (i : nat) : comp unit :=
  let* m := load l in
  match vals m with
  | Some rows =>
      match rows !! i with
      | Some _ => ret tt
      | None => undef
      end
  | None => undef
  end.

(** ** The library *)

Definition init_Matrix (M : ptr) (nrows ncols : nat) : comp unit :=
  match M with
  | None => ret tt
  | Some l =>
      store l (set_nrows nrows);;;
      store l (set_ncols ncols);;;
      if (nrows <=? 0)%nat || (ncols <=? 0)%nat
      then store l (set_vals None)
      else
        (* malloc (sizeof (double* ) * nrows): [nrows] row pointers, none of
           them usable yet *)
        store l (set_vals (Some (replicate nrows [])));;;
        for_int nrows (λ i, calloc_row l i ncols)
  end.

Definition new_Matrix (nrows ncols : nat) : comp ptr :=
  let* matrix := malloc_Matrix in
  init_Matrix (Some matrix) nrows ncols;;;
  ret (Some matrix).

Definition deinit_Matrix (M : ptr) : comp unit :=
  match M with
  | None => ret tt
  | Some l =>
      let* m := load l in
      match vals m with
      | None => ret tt
      | Some _ =>
          for_int (nrows m) (λ i, free_row l i);;;
          store l (set_vals None);;;
          store l (set_nrows 0);;;
          store l (set_ncols 0)
      end
  end.

Definition delete_Matrix (M : ptr) : comp unit :=
  match M with
  | None => ret tt
  | Some l =>
      deinit_Matrix M;;;
      free_Matrix l
  end.

Definition is_null {A} (p : option A) : bool :=
  match p with
  | None => true
  | Some _ => false
  end.

Definition Matrix_get (M : ptr) (i j : nat) : comp float :=
  match M with
  | None => set_errno EINVAL;;; ret 0
  | Some l =>
      let* m := load l in
      if is_null (vals m) || (i <? 0)%nat || (j <? 0)%nat
         || (nrows m <=? i)%nat || (ncols m <=? j)%nat
      then set_errno EINVAL;;; ret 0
      else read_val l i j
  end.

Definition Matrix_put (M : ptr) (i j : nat) (val : float) : comp Z :=
  match M with
  | None => ret 1%Z
  | Some l =>
      let* m := load l in
      if is_null (vals m) || (i <? 0)%nat || (j <? 0)%nat
         || (nrows m <=? i)%nat || (ncols m <=? j)%nat
      then ret 1%Z
      else write_val l i j val;;; ret 0%Z
  end.

Definition Matrix_add (A B : ptr) : comp ptr :=
  match A, B with
  | Some a, Some b =>
      let* ma := load a in
      if is_null (vals ma) then ret None
      else
      let* mb := load b in
      if is_null (vals mb) then ret None
      else if negb ((nrows ma =? nrows mb)%nat && (ncols mb =? ncols ma)%nat)
      then ret None
      else
        let* r := new_Matrix (nrows ma) (ncols mb) in
        match r with
        | None => undef
        | Some r' =>
            let* mr := load r' in
            for_int (nrows mr) (λ i,
              for_int (ncols mr) (λ j,
                let* x := read_val a i j in
                let* y := read_val b i j in
                write_val r' i j (x + y)));;;
            ret r
        end
  | _, _ => ret None
  end.

(** The body of the inner loop of [Matrix_l1]; [toAdd] does not outlive it. *)
Definition l1_step (toAdd result : float) : float :=
  let toAdd := if toAdd <? 0 then toAdd * (-1) else toAdd in
  result + toAdd.

Definition Matrix_l1 (A : ptr) : comp float :=
  match A with
  | None => set_errno EINVAL;;; ret 0
  | Some a =>
      let* ma := load a in
      if is_null (vals ma) || (nrows ma <=? 0)%nat || (ncols ma <=? 0)%nat
      then set_errno EINVAL;;; ret 0
      else
        for_loop 0 (nrows ma) (λ i result,
          for_loop 0 (ncols ma) (λ j result,
            let* toAdd := read_val a i j in
            ret (l1_step toAdd result)) result) 0
  end.

(** A call [sqrt (x)]: a domain error for [x < 0], [-inf] included; none
    for [-0.0] and for NaN. *)
Definition call_sqrt (x : float) : comp float :=
  λ s, Some (sqrt x, if x <? 0 then mkState (heap s) EDOM else s).

Section Libm.

(** [pow] of [<math.h>]: the double it returns, and what it stores in
    [errno], if anything. *)
Variable pow : float → float → float.
Variable pow_errno : float → float → option Z.

(** A call [pow (x, y)]. *)
Definition call_pow (x y : float) : comp float :=
  λ s, Some (pow x y,
             match pow_errno x y with
             | Some e => mkState (heap s) e
             | None => s
             end).

Definition Matrix_l2 (A : ptr) : comp float :=
  match A with
  | None => ret 0
  | Some a =>
      let* ma := load a in
      let* ret' :=
        for_loop 0 (nrows ma) (λ i acc,
          for_loop 0 (ncols ma) (λ j acc,
            let* x := read_val a i j in
            let* sq := call_pow x 2 in
            ret (acc + sq)) acc) 0 in
      call_sqrt ret'
  end.

End Libm.

Definition Matrix_mult (A B : ptr) : comp ptr :=
  match A, B with
  | Some a, Some b =>
      let* ma := load a in
      if is_null (vals ma) then ret None
      else
      let* mb := load b in
      if is_null (vals mb) then ret None
      else if negb ((nrows ma =? ncols mb)%nat && (ncols ma =? nrows mb)%nat)
      then ret None
      else
        let* r := new_Matrix (nrows ma) (ncols mb) in
        match r with
        | None => undef
        | Some r' =>
            let* mr := load r' in
            for_int (nrows mr) (λ i,
              for_int (ncols mr) (λ j,
                for_int (ncols ma) (λ k,
                  let* x := read_val a i k in
                  let* y := read_val b k j in
                  let* z := read_val r' i j in
                  write_val r' i j (z + x * y))));;;
            ret r
        end
  | _, _ => ret None
  end.

(** * Vocabulary of the specification *)

(** The state in which the struct at [l] is [m] and the rest of the heap is
    [h]. *)
Definition with_Matrix (h : gmap loc Matrix) (e : Z) (l : loc) (m : Matrix)
  : state := mkState (<[l := m]> h) e.

(** [r] rows of [c] zeros each. *)
Definition zeros (r c : nat) : list (list float) := replicate r (replicate c 0).

(** What [init_Matrix] leaves in the struct. *)
Definition init_result (r c : nat) : Matrix :=
  mkMatrix r c (if (r <=? 0)%nat || (c <=? 0)%nat then None else Some (zeros r c)).

(** The block has [n] rows of [c] entries each. *)
Definition shaped (n c : nat) (rows : list (list float)) : Prop :=
  length rows = n ∧ Forall (λ row, length row = c) rows.

(** The struct has backing storage [rows], of the recorded dimensions. *)
Definition stored (m : Matrix) (rows : list (list float)) : Prop :=
  vals m = Some rows ∧ shaped (nrows m) (ncols m) rows.

(** [rows] with entry [(i, j)] replaced by [v]. *)
Definition update (rows : list (list float)) (i j : nat) (v : float)
  : list (list float) :=
  match rows !! i with
  | Some row => <[i := <[j := v]> row]> rows
  | None => rows
  end.

(** The two guards of [Matrix_get] and [Matrix_put] that can fire on a struct:
    no storage, or an index beyond a dimension. *)
Definition out_of_range (m : Matrix) (i j : nat) : Prop :=
  vals m = None ∨ (nrows m ≤ i)%nat ∨ (ncols m ≤ j)%nat.

(** The struct after a successful [Matrix_put]. *)
Definition put_result (m : Matrix) (rows : list (list float)) (i j : nat)
    (v : float) : Matrix :=
  mkMatrix (nrows m) (ncols m) (Some (update rows i j v)).

(** [rows] is an [n] by [c] block whose entry [(i, j)] is [g i j]. *)
Definition represents (n c : nat) (g : nat → nat → float)
    (rows : list (list float)) : Prop :=
  shaped n c rows
  ∧ ∀ i j, (i < n)%nat → (j < c)%nat → entry rows i j = Some (g i j).

(** [g] with the value at [(i, j)] replaced by [v]. *)
Definition upd2 (g : nat → nat → float) (i j : nat) (v : float)
  : nat → nat → float :=
  λ i' j', if decide (i' = i ∧ j' = j) then v else g i' j'.

(** [M->vals[i][j]] read off a struct. *)
Definition entry_of (m : Matrix) (i j : nat) : option float :=
  match vals m with
  | Some rows => entry rows i j
  | None => None
  end.

(** The same for an index in range, where the read cannot fail. *)
Definition elem (m : Matrix) (i j : nat) : float := default 0 (entry_of m i j).

(** The shape every struct built through the API has: no storage when a
    dimension is zero, a block of the recorded dimensions otherwise. *)
Definition Matrix_ok (m : Matrix) : Prop :=
  match vals m with
  | None => nrows m = 0%nat ∨ ncols m = 0%nat
  | Some rows =>
      (0 < nrows m)%nat ∧ (0 < ncols m)%nat ∧ shaped (nrows m) (ncols m) rows
  end.

(** The tail shared by [Matrix_add] and [Matrix_mult]: allocate the result,
    then run the two outer loops over it. *)
Definition fresh_fill (n c : nat) (cell : loc → nat → nat → comp unit)
  : comp ptr :=
  let* r := new_Matrix n c in
  match r with
  | None => undef
  | Some r' =>
      let* mr := load r' in
      for_int (nrows mr) (λ i, for_int (ncols mr) (λ j, cell r' i j));;;
      ret r
  end.

(** The innermost statement of [Matrix_add]. *)
Definition add_cell (a b r : loc) (i j : nat) : comp unit :=
  let* x := read_val a i j in
  let* y := read_val b i j in
  write_val r i j (x + y).

(** The innermost loop of [Matrix_mult], for one slot [(i, j)] of the result. *)
Definition mult_cell (a b : loc) (m : nat) (r : loc) (i j : nat) : comp unit :=
  for_int m (λ k,
    let* x := read_val a i k in
    let* y := read_val b k j in
    let* z := read_val r i j in
    write_val r i j (z + x * y)).

(** [z + A[i][0] * B[0][j] + ... + A[i][m-1] * B[m-1][j]], added up from the
    left in that order. *)
Definition dot (ma mb : Matrix) (m i j : nat) (z : float) : float :=
  foldl (λ acc k, acc + elem ma i k * elem mb k j) z (seq 0 m).

(** The absolute value as [Matrix_l1] takes it. *)
Definition abs_c (x : float) : float := if x <? 0 then x * (-1) else x.

(** The sum of the absolute values (the one of IEEE 754) of the entries,
    added up in doubles from [0.0], from the left. *)
Definition sum_abs (xs : list float) : float :=
  foldl (λ acc x, acc + abs x) 0 xs.

(** The sum of the squares of the entries, likewise; the squares are taken
    by [pow]. *)
Definition sum_squares (pow : float → float → float) (xs : list float) : float :=
  foldl (λ acc x, acc + pow x 2) 0 xs.

(** The double is NaN or its sign bit is clear. *)
Definition unsigned_SF (x : spec_float) : Prop :=
  match x with
  | S754_nan => True
  | S754_zero s | S754_infinity s | S754_finite s _ _ => s = false
  end.

(** A handle a caller may pass: [NULL], or the address of a live struct whose
    storage, if it has any, has the recorded dimensions. *)
Definition handle_ok (s : state) (M : ptr) : Prop :=
  match M with
  | None => True
  | Some l =>
      ∃ m, heap s !! l = Some m
           ∧ ∀ rows, vals m = Some rows → shaped (nrows m) (ncols m) rows
  end.

(** The failure branch of [Matrix_get] is taken. *)
Definition get_fails (s : state) (M : ptr) (i j : nat) : Prop :=
  match M with
  | None => True
  | Some l => ∃ m, heap s !! l = Some m ∧ out_of_range m i j
  end.

(** The failure branch of [Matrix_l1] is taken. *)
Definition l1_fails (s : state) (A : ptr) : Prop :=
  match A with
  | None => True
  | Some a =>
      ∃ m, heap s !! a = Some m
           ∧ (vals m = None ∨ (nrows m ≤ 0)%nat ∨ (ncols m ≤ 0)%nat)
  end.

(** Sample states for the scenarios of the specification. *)
Definition A_sample : Matrix := mkMatrix 2 2 (Some [[-1; 2]; [3; -4]]).
Definition B_sample : Matrix := mkMatrix 2 2 (Some [[1; 2]; [3; 4]]).
Definition identity_2x2 : Matrix := mkMatrix 2 2 (Some [[1; 0]; [0; 1]]).
Definition empty_sample : Matrix := mkMatrix 0 0 None.

Definition sample_heap : gmap loc Matrix :=
  <[1%positive := A_sample]>
    (<[2%positive := identity_2x2]>
       (<[3%positive := B_sample]> (<[4%positive := empty_sample]> ∅))).

Definition sample_state : state := mkState sample_heap 0.

(** A 2 by 2 matrix built through the API, and read back through it. *)
Definition build_2x2 (a b c d : float) : comp ptr :=
  let* M := new_Matrix 2 2 in
  Matrix_put M 0 0 a;;; Matrix_put M 0 1 b;;;
  Matrix_put M 1 0 c;;; Matrix_put M 1 1 d;;;
  ret M.

Definition read_2x2 (M : ptr) : comp (list (list float)) :=
  let* a := Matrix_get M 0 0 in
  let* b := Matrix_get M 0 1 in
  let* c := Matrix_get M 1 0 in
  let* d := Matrix_get M 1 1 in
  ret [[a; b]; [c; d]].

(** The count does not exceed [INT_MAX]: an [int] counter reaches it. *)
Definition fits_int (n : nat) : Prop := (Z.of_nat n ≤ INT_MAX)%Z.

(** Both recorded dimensions of the struct do not exceed [INT_MAX]. *)
Definition Matrix_fits (m : Matrix) : Prop :=
  fits_int (nrows m) ∧ fits_int (ncols m).

(** Every struct of the heap has dimensions that do not exceed [INT_MAX]. *)
Definition heap_fits (s : state) : Prop :=
  map_Forall (λ _ m, Matrix_fits m) (heap s).

(** A count above [INT_MAX], for which a loop overflows its counter:
    2147483649. *)
Definition beyond_int : nat := Z.to_nat (INT_MAX + 2).

(** The struct behind a handle has dimensions an [int] can count; the null
    handle has none. *)
Definition handle_fits (s : state) (M : ptr) : Prop :=
  match M with
  | None => True
  | Some l => ∀ m, heap s !! l = Some m → Matrix_fits m
  end.

(** Every struct of the heap has the shape the API gives a struct. *)
Definition heap_ok (s : state) : Prop :=
  map_Forall (λ _ m, Matrix_ok m) (heap s).

(** A handle that is [NULL] or the address of a struct of the heap. *)
Definition live_or_null (s : state) (M : ptr) : Prop :=
  match M with
  | None => True
  | Some l => is_Some (heap s !! l)
  end.

(** * Properties *)

(** ** Running computations *)

Lemma bind_Some {A B} (c : comp A) (k : A → comp B) s a s' :
  c s = Some (a, s') → bind c k s = k a s'.
Proof. intros H. unfold bind. by rewrite H. Qed.

Lemma bind_inv {A B} (c : comp A) (k : A → comp B) s b s'' :
  bind c k s = Some (b, s'') →
  ∃ a s', c s = Some (a, s') ∧ k a s' = Some (b, s'').
Proof.
  unfold bind. destruct (c s) as [[a s']|] eqn:E; [|done]. eauto.
Qed.

Lemma bind_None {A B} (c : comp A) (k : A → comp B) s :
  c s = None → bind c k s = None.
Proof. intros H. unfold bind. by rewrite H. Qed.

Lemma load_Some l m s : heap s !! l = Some m → load l s = Some (m, s).
Proof. intros H. unfold load. by rewrite H. Qed.

Lemma load_inv l m s s' :
  load l s = Some (m, s') → heap s !! l = Some m ∧ s' = s.
Proof.
  unfold load. destruct (heap s !! l) eqn:E; [|done].
  intros [= <- <-]. done.
Qed.

Lemma store_Some l f m s :
  heap s !! l = Some m →
  store l f s = Some (tt, mkState (<[l := f m]> (heap s)) (errno s)).
Proof. intros H. unfold store. by rewrite H. Qed.

Lemma load_with h e l m : load l (with_Matrix h e l m) = Some (m, with_Matrix h e l m).
Proof. apply load_Some. simpl. apply lookup_insert_eq. Qed.

Lemma load_with_ne h e l m l' m' :
  l' ≠ l → h !! l' = Some m' →
  load l' (with_Matrix h e l m) = Some (m', with_Matrix h e l m).
Proof. intros Hne H. apply load_Some. simpl. by rewrite lookup_insert_ne. Qed.

Lemma store_with h e l m f :
  store l f (with_Matrix h e l m) = Some (tt, with_Matrix h e l (f m)).
Proof.
  unfold store, with_Matrix. simpl. rewrite lookup_insert_eq.
  by rewrite insert_insert_eq.
Qed.

Lemma state_as_with s l m :
  heap s !! l = Some m → s = with_Matrix (heap s) (errno s) l m.
Proof.
  intros H. destruct s as [h e]. unfold with_Matrix. simpl in *.
  by rewrite insert_id.
Qed.

(** ** Loops *)

(** A loop whose bound an [int] reaches and whose every iteration
    re-establishes [Inv] runs to its end. *)
Lemma for_loop_inv {A} (Inv : nat → A → state → Prop) (body : nat → A → comp A)
    (count : nat) :
  ∀ (start : nat) (a : A) (s : state),
    fits_int (start + count) →
    Inv start a s →
    (∀ i a s, (start ≤ i < start + count)%nat → Inv i a s →
       ∃ a' s', body i a s = Some (a', s') ∧ Inv (S i) a' s') →
    ∃ a' s', for_loop start count body a s = Some (a', s')
             ∧ Inv (start + count)%nat a' s'.
Proof.
  induction count as [|count IH]; intros start a s Hfit H0 Hstep.
  - exists a, s. rewrite Nat.add_0_r. done.
  - destruct (Hstep start a s) as (a1 & s1 & Hb & H1); [lia|done|].
    destruct (IH (S start) a1 s1) as (a2 & s2 & Hl & H2); [| done | |].
    + unfold fits_int in *. lia.
    + intros i a' s' Hi. apply Hstep. lia.
    + exists a2, s2. split.
      * simpl. rewrite (bind_Some _ _ _ _ _ Hb).
        rewrite decide_True; [done|]. unfold fits_int in Hfit. lia.
      * by replace (start + S count)%nat with (S start + count)%nat by lia.
Qed.

Lemma for_int_inv (Inv : nat → state → Prop) (body : nat → comp unit)
    (n : nat) (s : state) :
  fits_int n →
  Inv 0%nat s →
  (∀ i s, (i < n)%nat → Inv i s → ∃ s', body i s = Some (tt, s') ∧ Inv (S i) s') →
  ∃ s', for_int n body s = Some (tt, s') ∧ Inv n s'.
Proof.
  intros Hfit H0 Hstep.
  destruct (for_loop_inv (λ i _ s, Inv i s) (λ i _, body i) n 0 tt s)
    as ([] & s' & Hl & Hn); [done|done| |by eauto].
  intros i [] s1 Hi Hinv. destruct (Hstep i s1) as (s2 & ? & ?); [lia|done|].
  by exists tt, s2.
Qed.

(** A loop whose bound exceeds [INT_MAX] overflows its counter, whatever its
    body does. *)
Lemma for_loop_overflow {A} (body : nat → A → comp A) (count : nat) :
  ∀ (start : nat) (a : A) (s : state),
    fits_int start → ¬ fits_int (start + count) →
    for_loop start count body a s = None.
Proof.
  induction count as [|count IH]; intros start a s Hstart Hover.
  - rewrite Nat.add_0_r in Hover. done.
  - simpl. unfold bind. destruct (body start a s) as [[a1 s1]|]; [|done].
    case_decide as Hlt; [|done]. apply IH.
    + unfold fits_int. lia.
    + by replace (S start + count)%nat with (start + S count)%nat by lia.
Qed.

Lemma for_int_overflow (body : nat → comp unit) (n : nat) (s : state) :
  ¬ fits_int n → for_int n body s = None.
Proof. intros Hn. apply for_loop_overflow; [|done]. unfold fits_int, INT_MAX. lia. Qed.

Lemma fits_int_0 : fits_int 0.
Proof. unfold fits_int, INT_MAX. lia. Qed.

Lemma beyond_int_spec : ¬ fits_int beyond_int ∧ (0 < beyond_int)%nat.
Proof. unfold fits_int, beyond_int, INT_MAX. lia. Qed.

Lemma fits_int_le (n n' : nat) : (n' ≤ n)%nat → fits_int n → fits_int n'.
Proof. unfold fits_int. lia. Qed.

Lemma Matrix_fits_sample :
  Matrix_fits A_sample ∧ Matrix_fits B_sample ∧ Matrix_fits identity_2x2
  ∧ Matrix_fits empty_sample.
Proof. unfold Matrix_fits, fits_int, INT_MAX. simpl. lia. Qed.

(** Nothing below counts up to [beyond_int]. *)
Global Opaque beyond_int.

(** ** Construction *)

Lemma calloc_rows_step (r c i : nat) :
  (i < r)%nat →
  <[i := replicate c 0]> (replicate i (replicate c 0) ++ replicate (r - i) [])
  = replicate (S i) (replicate c 0) ++ replicate (r - S i) [].
Proof.
  intros Hi. rewrite insert_app_r_alt; rewrite length_replicate; [|lia].
  rewrite Nat.sub_diag. replace (r - i)%nat with (S (r - S i)) by lia.
  simpl. change (?x :: ?l) with ([x] ++ l) at 1.
  rewrite app_assoc. f_equal.
  change [replicate c 0] with (replicate 1 (replicate c 0)).
  rewrite <- replicate_add. by rewrite Nat.add_1_r.
Qed.

Lemma init_Matrix_with h e l m r c :
  ((0 < r)%nat → (0 < c)%nat → fits_int r) →
  init_Matrix (Some l) r c (with_Matrix h e l m)
  = Some (tt, with_Matrix h e l (init_result r c)).
Proof.
  intros Hfit. unfold init_Matrix.
  rewrite (bind_Some _ _ _ _ _ (store_with _ _ _ _ _)).
  rewrite (bind_Some _ _ _ _ _ (store_with _ _ _ _ _)).
  unfold init_result, set_ncols, set_nrows. simpl.
  destruct ((r <=? 0)%nat || (c <=? 0)%nat) eqn:Hz.
  - by rewrite store_with.
  - rewrite (bind_Some _ _ _ _ _ (store_with _ _ _ _ _)).
    unfold set_vals. simpl.
    destruct (for_int_inv
      (λ i s, s = with_Matrix h e l
         (mkMatrix r c (Some (replicate i (replicate c 0) ++ replicate (r - i) []))))
      (λ i, calloc_row l i c) r
      (with_Matrix h e l (mkMatrix r c (Some (replicate r [])))))
      as (s' & Hl & ->).
    + apply orb_false_iff in Hz as [Hr Hc].
      apply Nat.leb_gt in Hr. apply Nat.leb_gt in Hc. by apply Hfit.
    + by rewrite Nat.sub_0_r.
    + intros i s Hi ->. eexists. split; [|reflexivity].
      unfold calloc_row. rewrite (bind_Some _ _ _ _ _ (load_with _ _ _ _)).
      simpl. rewrite decide_True.
      2:{ rewrite length_app, !length_replicate. lia. }
      rewrite store_with. unfold set_vals. simpl.
      by rewrite calloc_rows_step.
    + rewrite Hl. rewrite Nat.sub_diag. simpl. by rewrite app_nil_r.
Qed.

(** [new_Matrix] returns a handle that was not in use, leaves every other
    struct and [errno] alone, and the new struct is [init_result]. *)
Lemma new_Matrix_spec (r c : nat) (s : state) :
  ((0 < r)%nat → (0 < c)%nat → fits_int r) →
  let l := fresh (dom (heap s)) in
  heap s !! l = None
  ∧ new_Matrix r c s
    = Some (Some l, with_Matrix (heap s) (errno s) l (init_result r c)).
Proof.
  intros Hfit l. assert (Hl : heap s !! l = None).
  { apply not_elem_of_dom. apply is_fresh. }
  split; [done|]. unfold new_Matrix.
  assert (Hm : malloc_Matrix s
               = Some (l, with_Matrix (heap s) (errno s) l (mkMatrix 0 0 None)))
    by reflexivity.
  rewrite (bind_Some _ _ _ _ _ Hm).
  by rewrite (bind_Some _ _ _ _ _ (init_Matrix_with _ _ _ _ _ _ Hfit)).
Qed.

(** Beyond [INT_MAX] rows the loop that allocates them overflows its
    counter. *)
Lemma init_Matrix_overflow h e l m r c :
  (0 < r)%nat → (0 < c)%nat → ¬ fits_int r →
  init_Matrix (Some l) r c (with_Matrix h e l m) = None.
Proof.
  intros Hr Hc Hover. unfold init_Matrix.
  rewrite (bind_Some _ _ _ _ _ (store_with _ _ _ _ _)).
  rewrite (bind_Some _ _ _ _ _ (store_with _ _ _ _ _)).
  apply Nat.leb_gt in Hr. apply Nat.leb_gt in Hc. rewrite Hr, Hc.
  cbn [orb]. rewrite (bind_Some _ _ _ _ _ (store_with _ _ _ _ _)).
  by apply for_int_overflow.
Qed.

Lemma new_Matrix_overflow (r c : nat) (s : state) :
  (0 < r)%nat → (0 < c)%nat → ¬ fits_int r → new_Matrix r c s = None.
Proof.
  intros Hr Hc Hover. unfold new_Matrix.
  assert (Hm : malloc_Matrix s
               = Some (fresh (dom (heap s)),
                       with_Matrix (heap s) (errno s) (fresh (dom (heap s)))
                         (mkMatrix 0 0 None)))
    by reflexivity.
  rewrite (bind_Some _ _ _ _ _ Hm). apply bind_None.
  by apply init_Matrix_overflow.
Qed.


(** ** Blocks of rows *)

Lemma shaped_zeros r c : shaped r c (zeros r c).
Proof.
  split; [apply length_replicate|].
  apply Forall_replicate. apply length_replicate.
Qed.

Lemma entry_zeros r c i j :
  (i < r)%nat → (j < c)%nat → entry (zeros r c) i j = Some 0.
Proof.
  intros Hi Hj. unfold entry, zeros.
  rewrite lookup_replicate_2 by done. by apply lookup_replicate_2.
Qed.

Lemma shaped_row n c rows i :
  shaped n c rows → (i < n)%nat →
  ∃ row, rows !! i = Some row ∧ length row = c.
Proof.
  intros [Hn Hc] Hi. destruct (lookup_lt_is_Some_2 rows i) as [row Hrow]; [lia|].
  exists row. split; [done|]. by apply (Forall_lookup_1 _ _ _ _ Hc Hrow).
Qed.

Lemma shaped_entry n c rows i j :
  shaped n c rows → (i < n)%nat → (j < c)%nat → is_Some (entry rows i j).
Proof.
  intros Hs Hi Hj. destruct (shaped_row _ _ _ _ Hs Hi) as (row & Hrow & Hlen).
  unfold entry. rewrite Hrow. apply lookup_lt_is_Some_2. lia.
Qed.

Lemma entry_Some_lt n c rows i j x :
  shaped n c rows → entry rows i j = Some x → (i < n)%nat ∧ (j < c)%nat.
Proof.
  intros [Hn Hc] He. unfold entry in He.
  destruct (rows !! i) as [row|] eqn:Hrow; [|done].
  pose proof (lookup_lt_Some _ _ _ Hrow).
  pose proof (lookup_lt_Some _ _ _ He).
  pose proof (Forall_lookup_1 _ _ _ _ Hc Hrow) as Hlen. simpl in Hlen. lia.
Qed.

Lemma shaped_update n c rows i j v :
  shaped n c rows → shaped n c (update rows i j v).
Proof.
  intros [Hn Hc]. unfold update.
  destruct (rows !! i) as [row|] eqn:Hrow; [|done]. split.
  - by rewrite length_insert.
  - apply Forall_insert; [done|]. rewrite length_insert.
    by apply (Forall_lookup_1 _ _ _ _ Hc Hrow).
Qed.

Lemma entry_update_eq rows i j v :
  is_Some (entry rows i j) → entry (update rows i j v) i j = Some v.
Proof.
  unfold entry, update. destruct (rows !! i) as [row|] eqn:Hrow; [|by intros []].
  intros Hj. rewrite list_lookup_insert_eq by by eapply lookup_lt_Some.
  apply list_lookup_insert_eq. by apply lookup_lt_is_Some_1.
Qed.

Lemma entry_update_ne rows i j v i' j' :
  (i', j') ≠ (i, j) → entry (update rows i j v) i' j' = entry rows i' j'.
Proof.
  intros Hne. unfold entry, update.
  destruct (rows !! i) as [row|] eqn:Hrow; [|done].
  destruct (decide (i' = i)) as [->|Hi].
  - rewrite list_lookup_insert_eq by by eapply lookup_lt_Some.
    rewrite Hrow. apply list_lookup_insert_ne. congruence.
  - by rewrite list_lookup_insert_ne.
Qed.

(** ** Reading and writing entries *)

Lemma read_val_Some l i j m rows x s :
  heap s !! l = Some m → vals m = Some rows → entry rows i j = Some x →
  read_val l i j s = Some (x, s).
Proof.
  intros Hl Hv He. unfold read_val.
  rewrite (bind_Some _ _ _ _ _ (load_Some _ _ _ Hl)). by rewrite Hv, He.
Qed.

Lemma write_val_with h e l n c rows i j v :
  is_Some (entry rows i j) →
  write_val l i j v (with_Matrix h e l (mkMatrix n c (Some rows)))
  = Some (tt, with_Matrix h e l (mkMatrix n c (Some (update rows i j v)))).
Proof.
  intros He. unfold write_val, update, entry in *.
  rewrite (bind_Some _ _ _ _ _ (load_with _ _ _ _)). simpl.
  destruct (rows !! i) as [row|] eqn:Hrow; [|by destruct He].
  rewrite decide_True by by apply lookup_lt_is_Some_1.
  by rewrite store_with.
Qed.

(** ** Element access *)

Lemma guard_true m i j :
  out_of_range m i j →
  is_null (vals m) || (i <? 0)%nat || (j <? 0)%nat
    || (nrows m <=? i)%nat || (ncols m <=? j)%nat = true.
Proof.
  intros [Hv|[Hi|Hj]].
  - by rewrite Hv.
  - apply Nat.leb_le in Hi. rewrite Hi. by rewrite orb_true_r.
  - apply Nat.leb_le in Hj. rewrite Hj. by rewrite orb_true_r.
Qed.

Lemma guard_false m rows i j :
  vals m = Some rows → (i < nrows m)%nat → (j < ncols m)%nat →
  is_null (vals m) || (i <? 0)%nat || (j <? 0)%nat
    || (nrows m <=? i)%nat || (ncols m <=? j)%nat = false.
Proof.
  intros Hv Hi Hj. rewrite Hv. simpl.
  apply Nat.leb_gt in Hi. apply Nat.leb_gt in Hj. by rewrite Hi, Hj.
Qed.

Lemma guard_cases m i j :
  out_of_range m i j
  ∨ ∃ rows, vals m = Some rows ∧ (i < nrows m)%nat ∧ (j < ncols m)%nat.
Proof.
  unfold out_of_range. destruct (vals m) as [rows|]; [|by auto].
  destruct (decide (nrows m ≤ i)%nat); [by auto|].
  destruct (decide (ncols m ≤ j)%nat); [by auto|].
  right. exists rows. split; [done|lia].
Qed.

Lemma Matrix_get_null i j s :
  Matrix_get None i j s = Some (0, mkState (heap s) EINVAL).
Proof. reflexivity. Qed.

Lemma Matrix_get_invalid l m i j s :
  heap s !! l = Some m → out_of_range m i j →
  Matrix_get (Some l) i j s = Some (0, mkState (heap s) EINVAL).
Proof.
  intros Hl Hbad. unfold Matrix_get.
  rewrite (bind_Some _ _ _ _ _ (load_Some _ _ _ Hl)).
  by rewrite (guard_true _ _ _ Hbad).
Qed.

Lemma Matrix_get_valid l m rows i j s :
  heap s !! l = Some m → stored m rows →
  (i < nrows m)%nat → (j < ncols m)%nat →
  ∃ x, entry rows i j = Some x ∧ Matrix_get (Some l) i j s = Some (x, s).
Proof.
  intros Hl [Hv Hs] Hi Hj.
  destruct (shaped_entry _ _ _ _ _ Hs Hi Hj) as [x Hx].
  exists x. split; [done|]. unfold Matrix_get.
  rewrite (bind_Some _ _ _ _ _ (load_Some _ _ _ Hl)).
  rewrite (guard_false _ _ _ _ Hv Hi Hj).
  by eapply read_val_Some.
Qed.

Lemma Matrix_put_null i j v s : Matrix_put None i j v s = Some (1%Z, s).
Proof. reflexivity. Qed.

Lemma Matrix_put_invalid l m i j v s :
  heap s !! l = Some m → out_of_range m i j →
  Matrix_put (Some l) i j v s = Some (1%Z, s).
Proof.
  intros Hl Hbad. unfold Matrix_put.
  rewrite (bind_Some _ _ _ _ _ (load_Some _ _ _ Hl)).
  by rewrite (guard_true _ _ _ Hbad).
Qed.

Lemma Matrix_put_valid l m rows i j v s :
  heap s !! l = Some m → stored m rows →
  (i < nrows m)%nat → (j < ncols m)%nat →
  Matrix_put (Some l) i j v s
  = Some (0%Z, with_Matrix (heap s) (errno s) l (put_result m rows i j v)).
Proof.
  intros Hl [Hv Hs] Hi Hj. unfold Matrix_put.
  rewrite (bind_Some _ _ _ _ _ (load_Some _ _ _ Hl)).
  rewrite (guard_false _ _ _ _ Hv Hi Hj).
  pose proof (shaped_entry _ _ _ _ _ Hs Hi Hj) as He.
  rewrite (state_as_with s l m Hl) at 1.
  destruct m as [n c vs]. simpl in *. subst vs.
  rewrite (bind_Some _ _ _ _ _ (write_val_with _ _ _ _ _ _ _ _ v He)).
  reflexivity.
Qed.

Lemma stored_put_result m rows i j v :
  stored m rows → stored (put_result m rows i j v) (update rows i j v).
Proof. intros [Hv Hs]. split; [done|]. by apply shaped_update. Qed.

Lemma read_val_inv l i j x s s' :
  read_val l i j s = Some (x, s') →
  s' = s ∧ ∃ m rows, heap s !! l = Some m ∧ vals m = Some rows
                     ∧ entry rows i j = Some x.
Proof.
  unfold read_val. intros H.
  apply bind_inv in H as (m & s1 & [Hl ->]%load_inv & H).
  destruct (vals m) as [rows|] eqn:Hv; [|done].
  destruct (entry rows i j) as [y|] eqn:He; [|done].
  injection H as <- <-. eauto 10.
Qed.

(** ** Teardown *)

Lemma deinit_Matrix_null s : deinit_Matrix None s = Some (tt, s).
Proof. reflexivity. Qed.

Lemma deinit_Matrix_no_storage l m s :
  heap s !! l = Some m → vals m = None →
  deinit_Matrix (Some l) s = Some (tt, s).
Proof.
  intros Hl Hv. unfold deinit_Matrix.
  rewrite (bind_Some _ _ _ _ _ (load_Some _ _ _ Hl)). by rewrite Hv.
Qed.

Lemma free_rows l m rows s :
  heap s !! l = Some m → stored m rows → fits_int (nrows m) →
  for_int (nrows m) (λ i, free_row l i) s = Some (tt, s).
Proof.
  intros Hl [Hv Hs] Hfit.
  destruct (for_int_inv (λ _ s', s' = s) (λ i, free_row l i) (nrows m) s)
    as (s' & Hrun & ->); [done|done| |done].
  intros i ? Hi ->. exists s. split; [|done]. unfold free_row.
  rewrite (bind_Some _ _ _ _ _ (load_Some _ _ _ Hl)). rewrite Hv.
  destruct (shaped_row _ _ _ _ Hs Hi) as (row & -> & _). done.
Qed.

Lemma deinit_Matrix_storage l m rows s :
  heap s !! l = Some m → stored m rows → fits_int (nrows m) →
  deinit_Matrix (Some l) s
  = Some (tt, with_Matrix (heap s) (errno s) l (mkMatrix 0 0 None)).
Proof.
  intros Hl Hst Hfit. unfold deinit_Matrix.
  rewrite (bind_Some _ _ _ _ _ (load_Some _ _ _ Hl)).
  destruct Hst as [Hv Hs]. rewrite Hv.
  rewrite (bind_Some _ _ _ _ _ (free_rows _ _ _ _ Hl (conj Hv Hs) Hfit)).
  rewrite (state_as_with s l m Hl) at 1.
  rewrite (bind_Some _ _ _ _ _ (store_with _ _ _ _ _)).
  rewrite (bind_Some _ _ _ _ _ (store_with _ _ _ _ _)).
  by rewrite store_with.
Qed.

Lemma delete_Matrix_null s : delete_Matrix None s = Some (tt, s).
Proof. reflexivity. Qed.

(** [delete_Matrix] on a live handle tears the struct down and gives its
    address back. *)
Lemma delete_Matrix_live l m s :
  heap s !! l = Some m →
  (vals m = None ∨ ∃ rows, stored m rows ∧ fits_int (nrows m)) →
  delete_Matrix (Some l) s = Some (tt, mkState (delete l (heap s)) (errno s)).
Proof.
  intros Hl [Hv|(rows & Hst & Hfit)]; unfold delete_Matrix.
  - rewrite (bind_Some _ _ _ _ _ (deinit_Matrix_no_storage _ _ _ Hl Hv)).
    unfold free_Matrix. by rewrite Hl.
  - rewrite (bind_Some _ _ _ _ _ (deinit_Matrix_storage _ _ _ _ Hl Hst Hfit)).
    unfold free_Matrix, with_Matrix. simpl. rewrite lookup_insert_eq.
    by rewrite delete_insert_eq.
Qed.

(** ** Filling a result matrix entry by entry *)

Lemma represents_ext n c g g' rows :
  (∀ i j, (i < n)%nat → (j < c)%nat → g i j = g' i j) →
  represents n c g rows → represents n c g' rows.
Proof.
  intros Hext [Hs Hg]. split; [done|].
  intros i j Hi Hj. rewrite <- Hext by done. by apply Hg.
Qed.

Lemma represents_zeros n c : represents n c (λ _ _, 0) (zeros n c).
Proof. split; [apply shaped_zeros|]. intros. by apply entry_zeros. Qed.

Lemma represents_update n c g rows i j v :
  represents n c g rows → (i < n)%nat → (j < c)%nat →
  represents n c (upd2 g i j v) (update rows i j v).
Proof.
  intros [Hs Hg] Hi Hj. split; [by apply shaped_update|].
  intros i' j' Hi' Hj'. unfold upd2. case_decide as Heq.
  - destruct Heq as [-> ->]. apply entry_update_eq. rewrite Hg by done. eauto.
  - rewrite entry_update_ne by naive_solver. by apply Hg.
Qed.

Lemma represents_of_shaped n c rows :
  shaped n c rows →
  represents n c (λ i j, default 0 (entry rows i j)) rows.
Proof.
  intros Hs. split; [done|]. intros i j Hi Hj.
  by destruct (shaped_entry _ _ _ _ _ Hs Hi Hj) as [x ->].
Qed.

Section Fill.

Variables (h : gmap loc Matrix) (e : Z) (r : loc) (n c : nat).
Variable cell : nat → nat → comp unit.
Variable F : nat → nat → float → float.

Abbreviation W rows := (with_Matrix h e r (mkMatrix n c (Some rows))).

(** What one pass of the loop body does to the result: entry [(i, j)] goes
    from [x] to [F i j x], nothing else moves. *)
Hypothesis cell_spec :
  ∀ i j g rows, (i < n)%nat → (j < c)%nat → represents n c g rows →
    ∃ rows', cell i j (W rows) = Some (tt, W rows')
             ∧ represents n c (upd2 g i j (F i j (g i j))) rows'.

(** Both loop bounds are within reach of their [int] counters. *)
Hypothesis fit_n : fits_int n.
Hypothesis fit_c : fits_int c.

Lemma fill_row g0 rows0 i :
  (i < n)%nat → represents n c g0 rows0 →
  ∃ rows', for_int c (λ j, cell i j) (W rows0) = Some (tt, W rows')
    ∧ represents n c
        (λ i' j', if decide (i' = i) then F i' j' (g0 i' j') else g0 i' j') rows'.
Proof.
  intros Hi H0.
  destruct (for_int_inv
    (λ j s, ∃ rows, s = W rows ∧ represents n c
       (λ i' j', if decide (i' = i ∧ (j' < j)%nat)
                 then F i' j' (g0 i' j') else g0 i' j') rows)
    (λ j, cell i j) c (W rows0)) as (s' & Hrun & rows' & -> & Hrep).
  - done.
  - exists rows0. split; [done|]. eapply represents_ext; [|exact H0].
    intros i' j' _ _. cbv beta. case_decide; [lia|done].
  - intros j s Hj (rows & -> & Hrep).
    destruct (cell_spec i j _ rows Hi Hj Hrep) as (rows' & Hc & Hrep').
    exists (W rows'). split; [done|]. exists rows'. split; [done|].
    eapply represents_ext; [|exact Hrep'].
    intros i' j' _ _. unfold upd2. simpl.
    repeat case_decide; destruct_and?; simplify_eq; try done; lia.
  - exists rows'. split; [done|]. eapply represents_ext; [|exact Hrep].
    intros i' j' _ Hj'. simpl. repeat case_decide; try done; lia.
Qed.

Lemma fill_loops g0 rows0 :
  represents n c g0 rows0 →
  ∃ rows', for_int n (λ i, for_int c (λ j, cell i j)) (W rows0)
           = Some (tt, W rows')
    ∧ represents n c (λ i j, F i j (g0 i j)) rows'.
Proof.
  intros H0.
  destruct (for_int_inv
    (λ i s, ∃ rows, s = W rows ∧ represents n c
       (λ i' j', if decide (i' < i)%nat
                 then F i' j' (g0 i' j') else g0 i' j') rows)
    (λ i, for_int c (λ j, cell i j)) n (W rows0))
    as (s' & Hrun & rows' & -> & Hrep).
  - done.
  - exists rows0. split; [done|]. eapply represents_ext; [|exact H0].
    intros i' j' _ _. cbv beta. case_decide; [lia|done].
  - intros i s Hi (rows & -> & Hrep).
    destruct (fill_row _ rows i Hi Hrep) as (rows' & Hc & Hrep').
    exists (W rows'). split; [done|]. exists rows'. split; [done|].
    eapply represents_ext; [|exact Hrep'].
    intros i' j' _ _. simpl. repeat case_decide; destruct_and?; simplify_eq; try done; lia.
  - exists rows'. split; [done|]. eapply represents_ext; [|exact Hrep].
    intros i' j' Hi' _. simpl. case_decide; [done|lia].
Qed.

End Fill.

(** ** Producing a fresh result matrix *)

Lemma entry_of_elem m rows i j :
  stored m rows → (i < nrows m)%nat → (j < ncols m)%nat →
  entry_of m i j = Some (elem m i j) ∧ entry rows i j = Some (elem m i j).
Proof.
  intros [Hv Hs] Hi Hj. unfold elem, entry_of. rewrite Hv.
  by destruct (shaped_entry _ _ _ _ _ Hs Hi Hj) as [x ->].
Qed.

Lemma for_int_nothing n c (body : nat → nat → comp unit) s :
  n = 0%nat ∨ c = 0%nat → fits_int n →
  for_int n (λ i, for_int c (λ j, body i j)) s = Some (tt, s).
Proof.
  intros [->| ->] Hfit; [done|].
  destruct (for_int_inv (λ _ s', s' = s) (λ i, for_int 0 (λ j, body i j)) n s)
    as (s' & Hrun & ->); [done|done| |done].
  intros i ? _ ->. by exists s.
Qed.

Lemma init_result_empty n c :
  n = 0%nat ∨ c = 0%nat → init_result n c = mkMatrix n c None.
Proof. intros [->| ->]; unfold init_result; [done|]. by rewrite orb_true_r. Qed.

Lemma init_result_zeros n c :
  (0 < n)%nat → (0 < c)%nat → init_result n c = mkMatrix n c (Some (zeros n c)).
Proof.
  intros Hn Hc. unfold init_result.
  apply Nat.leb_gt in Hn. apply Nat.leb_gt in Hc. by rewrite Hn, Hc.
Qed.

Lemma fresh_fill_empty n c cell s :
  n = 0%nat ∨ c = 0%nat → fits_int n →
  fresh_fill n c cell s
  = Some (Some (fresh (dom (heap s))),
          with_Matrix (heap s) (errno s) (fresh (dom (heap s))) (mkMatrix n c None)).
Proof.
  intros Hz Hfit. unfold fresh_fill.
  destruct (new_Matrix_spec n c s) as [_ Hnew]; [done|].
  rewrite (bind_Some _ _ _ _ _ Hnew). rewrite (init_result_empty _ _ Hz).
  rewrite (bind_Some _ _ _ _ _ (load_with _ _ _ _)). simpl.
  by rewrite (bind_Some _ _ _ _ _ (for_int_nothing _ _ _ _ Hz Hfit)).
Qed.

Lemma fresh_fill_spec n c cell F s :
  (0 < n)%nat → (0 < c)%nat → fits_int n → fits_int c →
  (∀ i j g rows, (i < n)%nat → (j < c)%nat → represents n c g rows →
    ∃ rows',
      cell (fresh (dom (heap s))) i j
        (with_Matrix (heap s) (errno s) (fresh (dom (heap s)))
           (mkMatrix n c (Some rows)))
      = Some (tt, with_Matrix (heap s) (errno s) (fresh (dom (heap s)))
                    (mkMatrix n c (Some rows')))
      ∧ represents n c (upd2 g i j (F i j (g i j))) rows') →
  ∃ rows,
    fresh_fill n c cell s
    = Some (Some (fresh (dom (heap s))),
            with_Matrix (heap s) (errno s) (fresh (dom (heap s)))
              (mkMatrix n c (Some rows)))
    ∧ represents n c (λ i j, F i j 0) rows.
Proof.
  intros Hn Hc Hfn Hfc Hcell. unfold fresh_fill.
  destruct (new_Matrix_spec n c s) as [_ Hnew]; [done|].
  rewrite (bind_Some _ _ _ _ _ Hnew). rewrite (init_result_zeros _ _ Hn Hc).
  rewrite (bind_Some _ _ _ _ _ (load_with _ _ _ _)). simpl.
  destruct (fill_loops _ _ _ _ _ _ F Hcell Hfn Hfc _ _ (represents_zeros n c))
    as (rows & Hrun & Hrep).
  exists rows. split; [|done]. by rewrite (bind_Some _ _ _ _ _ Hrun).
Qed.

(** A first loop of at least one pass fails as soon as the loop inside it
    overflows. *)
Lemma for_int_nested_overflow n c (body : nat → nat → comp unit) s :
  (0 < n)%nat → ¬ fits_int c →
  for_int n (λ i, for_int c (λ j, body i j)) s = None.
Proof.
  intros Hn Hover. destruct n as [|n]; [lia|].
  unfold for_int at 1. cbn [for_loop]. apply bind_None.
  by apply for_int_overflow.
Qed.

(** When a dimension of the result exceeds [INT_MAX], what [fresh_fill]
    does no longer depends on the statement that fills a slot. *)
Lemma fresh_fill_unfit n c cell cell' s :
  ¬ (fits_int n ∧ fits_int c) →
  fresh_fill n c cell s = fresh_fill n c cell' s.
Proof.
  intros Hover. unfold fresh_fill.
  destruct (decide (Z.of_nat n ≤ INT_MAX)%Z) as [Hfn|Hfn].
  - assert (¬ fits_int c) as Hfc by (intros ?; by apply Hover).
    destruct (new_Matrix_spec n c s) as [_ Hnew]; [done|].
    rewrite !(bind_Some _ _ _ _ _ Hnew).
    rewrite !(bind_Some _ _ _ _ _ (load_with _ _ _ _)).
    unfold init_result. cbn [nrows ncols].
    destruct (decide (n = 0%nat)) as [->|Hn]; [done|].
    assert (0 < n)%nat as Hpos by lia.
    by rewrite !(bind_None _ _ _ (for_int_nested_overflow _ _ _ _ Hpos Hfc)).
  - destruct (decide (c = 0%nat)) as [->|Hc].
    + destruct (new_Matrix_spec n 0 s) as [_ Hnew]; [lia|].
      rewrite !(bind_Some _ _ _ _ _ Hnew).
      rewrite !(bind_Some _ _ _ _ _ (load_with _ _ _ _)).
      unfold init_result. cbn [nrows ncols].
      by rewrite !(bind_None _ _ _ (for_int_overflow _ _ _ Hfn)).
    + assert (0 < n)%nat as Hpn by (unfold INT_MAX in Hfn; lia).
      assert (0 < c)%nat as Hpc by lia.
      by rewrite !(bind_None _ _ _ (new_Matrix_overflow n c s Hpn Hpc Hfn)).
Qed.


(** ** Addition *)

Lemma Matrix_add_null_l B s : Matrix_add None B s = Some (None, s).
Proof. reflexivity. Qed.

Lemma Matrix_add_null_r A s : Matrix_add A None s = Some (None, s).
Proof. by destruct A. Qed.

Lemma Matrix_add_no_storage a b ma mb s :
  heap s !! a = Some ma → heap s !! b = Some mb →
  vals ma = None ∨ vals mb = None →
  Matrix_add (Some a) (Some b) s = Some (None, s).
Proof.
  intros Ha Hb Hv. unfold Matrix_add.
  rewrite (bind_Some _ _ _ _ _ (load_Some _ _ _ Ha)).
  destruct (vals ma); [|done]. simpl.
  rewrite (bind_Some _ _ _ _ _ (load_Some _ _ _ Hb)).
  by destruct Hv as [? | ->].
Qed.

Lemma Matrix_add_mismatch a b ma mb s :
  heap s !! a = Some ma → heap s !! b = Some mb →
  nrows ma ≠ nrows mb ∨ ncols ma ≠ ncols mb →
  Matrix_add (Some a) (Some b) s = Some (None, s).
Proof.
  intros Ha Hb Hd. unfold Matrix_add.
  rewrite (bind_Some _ _ _ _ _ (load_Some _ _ _ Ha)).
  destruct (is_null (vals ma)); [done|].
  rewrite (bind_Some _ _ _ _ _ (load_Some _ _ _ Hb)).
  destruct (is_null (vals mb)); [done|].
  assert ((nrows ma =? nrows mb)%nat && (ncols mb =? ncols ma)%nat = false)
    as ->; [|done].
  apply andb_false_iff. rewrite !Nat.eqb_neq. destruct Hd; [by left|by right].
Qed.

Lemma Matrix_add_conformant a b ma mb rowsa rowsb s :
  heap s !! a = Some ma → heap s !! b = Some mb →
  vals ma = Some rowsa → vals mb = Some rowsb →
  nrows ma = nrows mb → ncols ma = ncols mb →
  Matrix_add (Some a) (Some b) s
  = fresh_fill (nrows ma) (ncols ma) (add_cell a b) s.
Proof.
  intros Ha Hb Hva Hvb Hn Hc. unfold Matrix_add.
  rewrite (bind_Some _ _ _ _ _ (load_Some _ _ _ Ha)). rewrite Hva. simpl.
  rewrite (bind_Some _ _ _ _ _ (load_Some _ _ _ Hb)). rewrite Hvb. simpl.
  rewrite <- Hn, <- Hc, !Nat.eqb_refl. reflexivity.
Qed.

Lemma add_cell_spec a b ma mb rowsa rowsb h e r n c :
  h !! r = None → h !! a = Some ma → h !! b = Some mb →
  stored ma rowsa → stored mb rowsb →
  nrows ma = n → ncols ma = c → nrows mb = n → ncols mb = c →
  ∀ i j g rows, (i < n)%nat → (j < c)%nat → represents n c g rows →
    ∃ rows',
      add_cell a b r i j (with_Matrix h e r (mkMatrix n c (Some rows)))
      = Some (tt, with_Matrix h e r (mkMatrix n c (Some rows')))
      ∧ represents n c (upd2 g i j (elem ma i j + elem mb i j)) rows'.
Proof.
  intros Hr Ha Hb Hsa Hsb <- <- Hn Hc i j g rows Hi Hj Hrep.
  exists (update rows i j (elem ma i j + elem mb i j)).
  split; [|by apply represents_update].
  assert (a ≠ r) by congruence. assert (b ≠ r) by congruence.
  destruct (entry_of_elem _ _ i j Hsa) as [_ Hx]; [done..|].
  destruct (entry_of_elem _ _ i j Hsb) as [_ Hy]; [lia..|].
  unfold add_cell.
  erewrite bind_Some; last first.
  { eapply read_val_Some; [|apply Hsa|exact Hx].
    simpl. by rewrite lookup_insert_ne. }
  erewrite bind_Some; last first.
  { eapply read_val_Some; [|apply Hsb|exact Hy].
    simpl. by rewrite lookup_insert_ne. }
  apply write_val_with. destruct Hrep as [_ Hg]. rewrite Hg by done. eauto.
Qed.

(** ** Multiplication *)

Lemma dot_S ma mb m i j z :
  dot ma mb (S m) i j z = dot ma mb m i j z + elem ma i m * elem mb m j.
Proof. unfold dot. rewrite seq_S, foldl_snoc. done. Qed.

Lemma Matrix_mult_null_l B s : Matrix_mult None B s = Some (None, s).
Proof. reflexivity. Qed.

Lemma Matrix_mult_null_r A s : Matrix_mult A None s = Some (None, s).
Proof. by destruct A. Qed.

Lemma Matrix_mult_no_storage a b ma mb s :
  heap s !! a = Some ma → heap s !! b = Some mb →
  vals ma = None ∨ vals mb = None →
  Matrix_mult (Some a) (Some b) s = Some (None, s).
Proof.
  intros Ha Hb Hv. unfold Matrix_mult.
  rewrite (bind_Some _ _ _ _ _ (load_Some _ _ _ Ha)).
  destruct (vals ma); [|done]. simpl.
  rewrite (bind_Some _ _ _ _ _ (load_Some _ _ _ Hb)).
  by destruct Hv as [? | ->].
Qed.

Lemma Matrix_mult_mismatch a b ma mb s :
  heap s !! a = Some ma → heap s !! b = Some mb →
  nrows ma ≠ ncols mb ∨ ncols ma ≠ nrows mb →
  Matrix_mult (Some a) (Some b) s = Some (None, s).
Proof.
  intros Ha Hb Hd. unfold Matrix_mult.
  rewrite (bind_Some _ _ _ _ _ (load_Some _ _ _ Ha)).
  destruct (is_null (vals ma)); [done|].
  rewrite (bind_Some _ _ _ _ _ (load_Some _ _ _ Hb)).
  destruct (is_null (vals mb)); [done|].
  assert ((nrows ma =? ncols mb)%nat && (ncols ma =? nrows mb)%nat = false)
    as ->; [|done].
  apply andb_false_iff. rewrite !Nat.eqb_neq. destruct Hd; [by left|by right].
Qed.

Lemma Matrix_mult_conformant a b ma mb rowsa rowsb s :
  heap s !! a = Some ma → heap s !! b = Some mb →
  vals ma = Some rowsa → vals mb = Some rowsb →
  nrows ma = ncols mb → ncols ma = nrows mb →
  Matrix_mult (Some a) (Some b) s
  = fresh_fill (nrows ma) (ncols mb) (mult_cell a b (ncols ma)) s.
Proof.
  intros Ha Hb Hva Hvb Hn Hc. unfold Matrix_mult.
  rewrite (bind_Some _ _ _ _ _ (load_Some _ _ _ Ha)). rewrite Hva. simpl.
  rewrite (bind_Some _ _ _ _ _ (load_Some _ _ _ Hb)). rewrite Hvb. simpl.
  rewrite <- Hn, <- Hc, !Nat.eqb_refl. reflexivity.
Qed.

Lemma mult_cell_spec a b ma mb rowsa rowsb h e r n c :
  h !! r = None → h !! a = Some ma → h !! b = Some mb →
  stored ma rowsa → stored mb rowsb →
  nrows ma = n → ncols mb = c → ncols ma = nrows mb →
  fits_int (ncols ma) →
  ∀ i j g rows, (i < n)%nat → (j < c)%nat → represents n c g rows →
    ∃ rows',
      mult_cell a b (ncols ma) r i j
        (with_Matrix h e r (mkMatrix n c (Some rows)))
      = Some (tt, with_Matrix h e r (mkMatrix n c (Some rows')))
      ∧ represents n c (upd2 g i j (dot ma mb (ncols ma) i j (g i j))) rows'.
Proof.
  intros Hr Ha Hb Hsa Hsb <- <- Hm Hfit i j g rows Hi Hj Hrep.
  assert (a ≠ r) by congruence. assert (b ≠ r) by congruence.
  set (W := λ rows, with_Matrix h e r
                      (mkMatrix (nrows ma) (ncols mb) (Some rows))).
  destruct (for_int_inv
    (λ k s, ∃ rows', s = W rows' ∧ represents (nrows ma) (ncols mb)
                                     (upd2 g i j (dot ma mb k i j (g i j))) rows')
    (λ k, let* x := read_val a i k in
          let* y := read_val b k j in
          let* z := read_val r i j in
          write_val r i j (z + x * y))
    (ncols ma) (W rows)) as (s' & Hrun & rows' & -> & Hrep').
  - done.
  - exists rows. split; [done|]. eapply represents_ext; [|exact Hrep].
    intros i' j' _ _. unfold upd2. case_decide as Heq; [|done].
    by destruct Heq as [-> ->].
  - intros k s Hk (rows1 & -> & Hrep1).
    exists (W (update rows1 i j
                 (dot ma mb k i j (g i j) + elem ma i k * elem mb k j))).
    destruct (entry_of_elem _ _ i k Hsa) as [_ Hx]; [done..|].
    destruct (entry_of_elem _ _ k j Hsb) as [_ Hy]; [lia|done|].
    assert (entry rows1 i j = Some (dot ma mb k i j (g i j))) as Hz.
    { destruct Hrep1 as [_ Hg]. rewrite Hg by done. unfold upd2.
      by rewrite decide_True. }
    split.
    + erewrite bind_Some; last first.
      { eapply read_val_Some; [|apply Hsa|exact Hx].
        simpl. by rewrite lookup_insert_ne. }
      erewrite bind_Some; last first.
      { eapply read_val_Some; [|apply Hsb|exact Hy].
        simpl. by rewrite lookup_insert_ne. }
      erewrite bind_Some; last first.
      { eapply read_val_Some;
          [simpl; apply lookup_insert_eq|reflexivity|exact Hz]. }
      apply write_val_with. rewrite Hz. eauto.
    + eexists. split; [reflexivity|].
      eapply represents_ext; [|by apply represents_update].
      intros i' j' _ _. unfold upd2. rewrite dot_S.
      by repeat case_decide.
  - exists rows'. split; [exact Hrun|done].
Qed.

(** ** Arithmetic of doubles

    From the specification of binary64 that comes with the primitive floats:
    multiplying by [1] or [-1] is exact, and adding a zero changes at most the
    sign of a zero. *)

Lemma one_SF : Prim2SF 1 = S754_finite false 4503599627370496 (-52).
Proof. reflexivity. Qed.

Lemma shift52 (m : positive) :
  (m * 4503599627370496)%positive
  = (m~0~0~0~0~0~0~0~0~0~0~0~0~0~0~0~0~0~0~0~0~0~0~0~0~0~0~0~0~0~0~0~0~0~0~0~0~0~0~0~0~0~0~0~0~0~0~0~0~0~0~0~0)%positive.
Proof. rewrite Pos.mul_comm. reflexivity. Qed.

Lemma round_exact s m e :
  bounded prec emax m e = true ->
  binary_round_aux prec emax s (Zpos (m * 4503599627370496)) (e + -52) loc_Exact
  = S754_finite s m e.
Proof.
  intros Hb. unfold bounded, canonical_mantissa in Hb.
  apply andb_prop in Hb as [Hc He]. apply Z.eqb_eq in Hc.
  rewrite shift52.
  unfold binary_round_aux, shr_fexp.
  cbn [Zdigits2 digits2_pos shr_record_of_loc].
  match goal with |- context [fexp prec emax ?a] =>
    replace a with (Z.pos (digits2_pos m) + e)%Z by lia end.
  rewrite Hc.
  replace (e - (e + -52))%Z with 52%Z by lia.
  cbn [shr SpecFloat.iter_pos shr_1 orb fst snd shr_m loc_of_shr_record
       round_nearest_even].
  cbn [Zdigits2 shr_record_of_loc].
  replace (e + -52 + 52)%Z with e by lia.
  rewrite Hc, Z.sub_diag. cbn [shr shr_m]. rewrite He. reflexivity.
Qed.

Lemma SF_zero : Prim2SF 0 = S754_zero false.
Proof. reflexivity. Qed.
Lemma SF_neg_zero : Prim2SF (-0) = S754_zero true.
Proof. reflexivity. Qed.
Lemma SF_minus_one : Prim2SF (-1) = S754_finite true 4503599627370496 (-52).
Proof. reflexivity. Qed.
Lemma SF_infinity : Prim2SF infinity = S754_infinity false.
Proof. reflexivity. Qed.

Lemma SFmul_unit (sy : bool) (x : spec_float) :
  valid_binary x = true ->
  SF64mul x (S754_finite sy 4503599627370496 (-52))
  = match x with
    | S754_zero s => S754_zero (xorb s sy)
    | S754_infinity s => S754_infinity (xorb s sy)
    | S754_nan => S754_nan
    | S754_finite s m e => S754_finite (xorb s sy) m e
    end.
Proof.
  intros Hv. destruct x as [s|s| |s m e]; try reflexivity.
  apply round_exact. exact Hv.
Qed.

Lemma float_mul_1_r x : x * 1 = x.
Proof.
  apply Prim2SF_inj. rewrite FloatAxioms.mul_spec, one_SF.
  rewrite (SFmul_unit false _ (Prim2SF_valid x)).
  destruct (Prim2SF x) as [s|s| |s m e]; try reflexivity;
    now rewrite Bool.xorb_false_r.
Qed.

Lemma float_mul_m1_r x : x * (-1) = - x.
Proof.
  apply Prim2SF_inj. rewrite FloatAxioms.mul_spec, FloatAxioms.opp_spec, SF_minus_one.
  rewrite (SFmul_unit true _ (Prim2SF_valid x)).
  destruct (Prim2SF x) as [s|s| |s m e]; try reflexivity;
    now rewrite Bool.xorb_true_r.
Qed.

Lemma abs_c_abs x : x <> (-0)%float -> abs_c x = abs x.
Proof.
  intros Hx. unfold abs_c. rewrite float_mul_m1_r.
  rewrite FloatAxioms.ltb_spec, SF_zero.
  apply Prim2SF_inj. rewrite FloatAxioms.abs_spec.
  assert (Prim2SF x <> S754_zero true) as Hx'.
  { intros H. apply Hx. apply Prim2SF_inj. now rewrite H. }
  destruct (Prim2SF x) as [[]|[]| |[] m e] eqn:E; cbn;
    rewrite ?FloatAxioms.opp_spec, ?E; try reflexivity. congruence.
Qed.

Lemma abs_c_neg_zero : abs_c (-0) = (-0)%float /\ ((-0) =? 0) = true.
Proof. split; reflexivity. Qed.

Lemma SFcompare_refl x : x <> S754_nan -> SFcompare x x = Some Eq.
Proof.
  destruct x as [s|[]| |[] m e]; try reflexivity; try congruence; intros _; cbn;
    rewrite Z.compare_refl, Pos.compare_cont_refl; reflexivity.
Qed.

Lemma is_finite_SF x :
  is_finite x = true ->
  match Prim2SF x with S754_zero _ | S754_finite _ _ _ => True | _ => False end.
Proof.
  unfold is_finite, is_nan, is_infinity.
  rewrite !FloatAxioms.eqb_spec, FloatAxioms.abs_spec, SF_infinity.
  destruct (Prim2SF x) as [s|[]| |[] m e]; cbn; try easy.
Qed.

Lemma identity_col_l a b :
  is_finite a = true -> is_finite b = true ->
  ((0 + a * 1 + b * 0) =? a) = true.
Proof.
  intros Ha Hb. apply is_finite_SF in Ha, Hb.
  rewrite float_mul_1_r.
  rewrite FloatAxioms.eqb_spec, !FloatAxioms.add_spec, FloatAxioms.mul_spec, SF_zero.
  destruct (Prim2SF a) as [[]|[]| |[] ma ea], (Prim2SF b) as [[]|[]| |[] mb eb];
    try easy; cbn; rewrite ?Z.compare_refl, ?Pos.compare_cont_refl; reflexivity.
Qed.

Lemma identity_col_r a b :
  is_finite a = true -> is_finite b = true ->
  ((0 + a * 0 + b * 1) =? b) = true.
Proof.
  intros Ha Hb. apply is_finite_SF in Ha, Hb.
  rewrite float_mul_1_r.
  rewrite FloatAxioms.eqb_spec, !FloatAxioms.add_spec, FloatAxioms.mul_spec, SF_zero.
  destruct (Prim2SF a) as [[]|[]| |[] ma ea], (Prim2SF b) as [[]|[]| |[] mb eb];
    try easy; cbn; rewrite ?Z.compare_refl, ?Pos.compare_cont_refl; reflexivity.
Qed.

Lemma binary_round_aux_unsigned m e l :
  unsigned_SF (binary_round_aux prec emax false m e l).
Proof.
  unfold binary_round_aux.
  destruct (shr_fexp prec emax m e l) as [mrs' e'].
  destruct (shr_fexp prec emax _ e' loc_Exact) as [mrs'' e''].
  destruct (shr_m mrs''); [done| |done]. by case_match.
Qed.

(** A sum of two doubles without sign has no sign: in particular it is
    never [-0.0]. *)
Lemma SFadd_unsigned x y :
  unsigned_SF x → unsigned_SF y → unsigned_SF (SF64add x y).
Proof.
  destruct x as [sx|sx| |sx mx ex], y as [sy|sy| |sy my ey]; simpl;
    intros Hx Hy; subst; try done.
  unfold binary_normalize. simpl.
  unfold binary_round.
  destruct (shl_align _ _ _) as [mz ez]. apply binary_round_aux_unsigned.
Qed.

Lemma SFabs_unsigned x : unsigned_SF (SFabs x).
Proof. by destruct x. Qed.

(** Added to a double without sign, the absolute value of the source and the
    one of IEEE 754 give the same sum, also for [-0.0]. *)
Lemma add_abs_c acc x :
  unsigned_SF (Prim2SF acc) → acc + abs_c x = acc + abs x.
Proof.
  intros Hacc. destruct (Leibniz.eqb x (-0)) eqn:E.
  - apply FloatAxioms.Leibniz.eqb_spec in E as ->.
    apply Prim2SF_inj. rewrite !FloatAxioms.add_spec.
    change (Prim2SF (abs_c (-0))) with (S754_zero true).
    change (Prim2SF (abs (-0))) with (S754_zero false).
    by destruct (Prim2SF acc) as [[]|[]| |[] m e].
  - rewrite abs_c_abs; [done|]. intros ->. by vm_compute in E.
Qed.

Lemma sum_abs_from acc xs :
  unsigned_SF (Prim2SF acc) →
  foldl (λ acc x, acc + abs_c x) acc xs = foldl (λ acc x, acc + abs x) acc xs.
Proof.
  revert acc. induction xs as [|x xs IH]; intros acc Hacc; [done|].
  simpl. rewrite add_abs_c by done. apply IH.
  rewrite FloatAxioms.add_spec. apply SFadd_unsigned; [done|].
  rewrite FloatAxioms.abs_spec. apply SFabs_unsigned.
Qed.

(** The sum [Matrix_l1] accumulates is the sum of the absolute values. *)
Lemma sum_abs_c xs : foldl (λ acc x, acc + abs_c x) 0 xs = sum_abs xs.
Proof. apply sum_abs_from. reflexivity. Qed.

(** ** Norms *)

(** Two nested loops that read every entry once and fold it into a local.
    The step may write [errno], as [pow] does; it leaves the heap alone, which
    the set [R] of the states it can reach records. *)
Lemma fold_entries (f : float → float → float) (step : float → float → comp float)
    (R : state → Prop) a m rows s acc0 :
  (∀ s1, R s1 → heap s1 = heap s) →
  (∀ acc x s1, R s1 → ∃ s2, step acc x s1 = Some (f acc x, s2) ∧ R s2) →
  R s →
  heap s !! a = Some m → stored m rows → Matrix_fits m →
  ∃ s',
    for_loop 0 (nrows m) (λ i acc,
      for_loop 0 (ncols m) (λ j acc,
        let* x := read_val a i j in step acc x) acc) acc0 s
    = Some (foldl f acc0 (concat rows), s')
    ∧ R s'.
Proof.
  intros HR Hstep Hs0 Ha [Hv Hs] [Hfn Hfc].
  destruct (for_loop_inv
    (λ i acc s', R s' ∧ acc = foldl f acc0 (concat (take i rows)))
    (λ i acc, for_loop 0 (ncols m) (λ j acc,
       let* x := read_val a i j in step acc x) acc)
    (nrows m) 0 acc0 s) as (acc & s' & Hrun & Hs' & ->).
  - done.
  - done.
  - intros i acc s1 Hi [Hs1 ->].
    destruct (shaped_row _ _ _ _ Hs (proj2 Hi)) as (row & Hrow & Hlen).
    destruct (for_loop_inv
      (λ j acc' s', R s'
         ∧ acc' = foldl f (foldl f acc0 (concat (take i rows))) (take j row))
      (λ j acc, let* x := read_val a i j in step acc x)
      (ncols m) 0 (foldl f acc0 (concat (take i rows))) s1)
      as (acc' & s' & Hrun & Hs' & ->).
    + done.
    + done.
    + intros j acc' s2 Hj [Hs2 ->].
      destruct (lookup_lt_is_Some_2 row j) as [x Hx]; [lia|].
      destruct (Hstep (foldl f (foldl f acc0 (concat (take i rows))) (take j row))
                  x s2 Hs2) as (s3 & Hrun & Hs3).
      exists (f (foldl f (foldl f acc0 (concat (take i rows))) (take j row)) x), s3.
      split.
      * erewrite bind_Some; [exact Hrun|].
        eapply read_val_Some; [by rewrite (HR _ Hs2)|exact Hv|].
        unfold entry. by rewrite Hrow.
      * split; [done|]. by rewrite (take_S_r _ _ _ Hx), foldl_snoc.
    + exists (foldl f (foldl f acc0 (concat (take i rows))) (take (0 + ncols m) row)), s'.
      split; [exact Hrun|]. split; [done|].
      rewrite (take_S_r _ _ _ Hrow), concat_app, foldl_app. simpl.
      rewrite app_nil_r. by rewrite (take_ge row) by lia.
  - exists s'. split; [|done]. rewrite Hrun.
    by rewrite take_ge by (destruct Hs; lia).
Qed.

Lemma l1_guard_false m rows :
  vals m = Some rows → (0 < nrows m)%nat → (0 < ncols m)%nat →
  is_null (vals m) || (nrows m <=? 0)%nat || (ncols m <=? 0)%nat = false.
Proof.
  intros -> Hn Hc. apply Nat.leb_gt in Hn. apply Nat.leb_gt in Hc.
  by rewrite Hn, Hc.
Qed.

Lemma l1_guard_true m :
  vals m = None ∨ (nrows m ≤ 0)%nat ∨ (ncols m ≤ 0)%nat →
  is_null (vals m) || (nrows m <=? 0)%nat || (ncols m <=? 0)%nat = true.
Proof.
  intros [->|[H|H]]; [done| |]; apply Nat.leb_le in H; rewrite H;
    by rewrite ?orb_true_r.
Qed.

Lemma Matrix_l1_null s : Matrix_l1 None s = Some (0, mkState (heap s) EINVAL).
Proof. reflexivity. Qed.

Lemma Matrix_l1_invalid a m s :
  heap s !! a = Some m →
  vals m = None ∨ (nrows m ≤ 0)%nat ∨ (ncols m ≤ 0)%nat →
  Matrix_l1 (Some a) s = Some (0, mkState (heap s) EINVAL).
Proof.
  intros Ha Hbad. unfold Matrix_l1.
  rewrite (bind_Some _ _ _ _ _ (load_Some _ _ _ Ha)).
  by rewrite (l1_guard_true _ Hbad).
Qed.

Lemma Matrix_l1_valid a m rows s :
  heap s !! a = Some m → stored m rows → Matrix_fits m →
  (0 < nrows m)%nat → (0 < ncols m)%nat →
  Matrix_l1 (Some a) s = Some (sum_abs (concat rows), s).
Proof.
  intros Ha Hst Hfit Hn Hc. unfold Matrix_l1.
  rewrite (bind_Some _ _ _ _ _ (load_Some _ _ _ Ha)).
  rewrite (l1_guard_false _ _ (proj1 Hst) Hn Hc). rewrite <- sum_abs_c.
  destruct (fold_entries (λ acc x, acc + abs_c x)
              (λ acc x, ret (l1_step x acc)) (λ s', s' = s) a m rows s 0)
    as (s' & Hrun & ->); try done.
  - by intros s1 ->.
  - intros acc x s1 ->. by exists s.
Qed.

Lemma Matrix_l2_null pow pow_errno s :
  Matrix_l2 pow pow_errno None s = Some (0, s).
Proof. reflexivity. Qed.

Lemma call_pow_heap pow pow_errno x y s :
  ∃ s', call_pow pow pow_errno x y s = Some (pow x y, s') ∧ heap s' = heap s.
Proof. unfold call_pow. eexists. split; [done|]. by destruct (pow_errno x y). Qed.

(** With storage [Matrix_l2] returns the square root of the sum of the
    [pow (x, 2)]; the calls of [pow] may have written [errno], the heap is as
    it was. *)
Lemma Matrix_l2_valid pow pow_errno a m rows s :
  heap s !! a = Some m → stored m rows → Matrix_fits m →
  ∃ s',
    Matrix_l2 pow pow_errno (Some a) s
    = Some (sqrt (sum_squares pow (concat rows)), s')
    ∧ heap s' = heap s.
Proof.
  intros Ha Hst Hfit. unfold Matrix_l2.
  rewrite (bind_Some _ _ _ _ _ (load_Some _ _ _ Ha)).
  destruct (fold_entries (λ acc x, acc + pow x 2)
              (λ acc x, let* sq := call_pow pow pow_errno x 2 in ret (acc + sq))
              (λ s', heap s' = heap s) a m rows s 0)
    as (s' & Hrun & Hs'); try done.
  - intros acc x s1 Hs1.
    destruct (call_pow_heap pow pow_errno x 2 s1) as (s2 & Hp & Hs2).
    exists s2. split; [|congruence]. by rewrite (bind_Some _ _ _ _ _ Hp).
  - rewrite (bind_Some _ _ _ _ _ Hrun). unfold call_sqrt.
    eexists. split; [reflexivity|]. by destruct (_ <? _).
Qed.

(** Where [pow] writes no [errno] on the entries of the matrix and the sum
    of the squares is not below zero, [Matrix_l2] leaves the whole state as it
    was. *)
Lemma Matrix_l2_quiet pow pow_errno a m rows s :
  heap s !! a = Some m → stored m rows → Matrix_fits m →
  (∀ x, x ∈ concat rows → pow_errno x 2%float = None) →
  (sum_squares pow (concat rows) <? 0) = false →
  Matrix_l2 pow pow_errno (Some a) s
  = Some (sqrt (sum_squares pow (concat rows)), s).
Proof.
  intros Ha [Hv Hs] [Hfn Hfc] Hq Hpos. unfold Matrix_l2.
  rewrite (bind_Some _ _ _ _ _ (load_Some _ _ _ Ha)).
  set (f := λ acc x : float, acc + pow x 2).
  destruct (for_loop_inv
    (λ i acc s', s' = s ∧ acc = foldl f 0 (concat (take i rows)))
    (λ i acc, for_loop 0 (ncols m) (λ j acc,
       let* x := read_val a i j in
       let* sq := call_pow pow pow_errno x 2 in ret (acc + sq)) acc)
    (nrows m) 0 0 s) as (acc & s' & Hrun & -> & ->).
  - done.
  - done.
  - intros i acc ? Hi [-> ->].
    destruct (shaped_row _ _ _ _ Hs (proj2 Hi)) as (row & Hrow & Hlen).
    destruct (for_loop_inv
      (λ j acc' s', s' = s
         ∧ acc' = foldl f (foldl f 0 (concat (take i rows))) (take j row))
      (λ j acc, let* x := read_val a i j in
                let* sq := call_pow pow pow_errno x 2 in ret (acc + sq))
      (ncols m) 0 (foldl f 0 (concat (take i rows))) s)
      as (acc' & s' & Hrun & -> & ->).
    + done.
    + done.
    + intros j acc' ? Hj [-> ->].
      destruct (lookup_lt_is_Some_2 row j) as [x Hx]; [lia|].
      exists (f (foldl f (foldl f 0 (concat (take i rows))) (take j row)) x), s.
      split.
      * erewrite bind_Some;
          [|eapply read_val_Some; [exact Ha|exact Hv|unfold entry; by rewrite Hrow]].
        unfold bind, call_pow. rewrite Hq; [done|].
        apply list_elem_of_In, in_concat. exists row.
        split; apply list_elem_of_In; by eapply list_elem_of_lookup_2.
      * split; [done|]. by rewrite (take_S_r _ _ _ Hx), foldl_snoc.
    + exists (foldl f (foldl f 0 (concat (take i rows))) (take (0 + ncols m) row)), s.
      split; [exact Hrun|]. split; [done|].
      rewrite (take_S_r _ _ _ Hrow), concat_app, foldl_app. simpl.
      rewrite app_nil_r. by rewrite (take_ge row) by lia.
  - rewrite (bind_Some _ _ _ _ _ Hrun).
    rewrite take_ge by (destruct Hs; lia).
    unfold call_sqrt.
    change (foldl f 0 (concat rows)) with (sum_squares pow (concat rows)).
    by rewrite Hpos.
Qed.

(** Without storage [Matrix_l2] still runs its loops; they touch no entry as
    long as one of the recorded dimensions is zero. *)
Lemma Matrix_l2_no_storage pow pow_errno a m s :
  heap s !! a = Some m → nrows m = 0%nat ∨ ncols m = 0%nat →
  fits_int (nrows m) →
  Matrix_l2 pow pow_errno (Some a) s = Some (0, s).
Proof.
  intros Ha Hz Hfit. unfold Matrix_l2.
  rewrite (bind_Some _ _ _ _ _ (load_Some _ _ _ Ha)).
  assert (for_loop 0 (nrows m) (λ i acc,
            for_loop 0 (ncols m) (λ j acc,
              let* x := read_val a i j in
              let* sq := call_pow pow pow_errno x 2 in
              ret (acc + sq)) acc) 0 s
          = Some (0, s)) as Hrun.
  { destruct Hz as [-> | ->]; [done|].
    destruct (for_loop_inv (λ _ acc s', s' = s ∧ acc = 0%float)
      (λ i acc, for_loop 0 0 (λ j acc,
         let* x := read_val a i j in
         let* sq := call_pow pow pow_errno x 2 in
         ret (acc + sq)) acc)
      (nrows m) 0 0 s) as (acc & s' & Hrun & -> & ->); [done|done| |done].
    intros i acc ? _ [-> ->]. by exists 0, s. }
  by rewrite (bind_Some _ _ _ _ _ Hrun).
Qed.

(** With positive dimensions and no storage the first iteration reads through
    the null [vals]: nothing in [Matrix_l2] stands in the way. *)
Lemma Matrix_l2_null_vals pow pow_errno a m s :
  heap s !! a = Some m → vals m = None →
  (0 < nrows m)%nat → (0 < ncols m)%nat →
  Matrix_l2 pow pow_errno (Some a) s = None.
Proof.
  intros Ha Hv Hn Hc. unfold Matrix_l2.
  rewrite (bind_Some _ _ _ _ _ (load_Some _ _ _ Ha)).
  assert (read_val a 0 0 s = None) as Hread.
  { unfold read_val. rewrite (bind_Some _ _ _ _ _ (load_Some _ _ _ Ha)).
    by rewrite Hv. }
  destruct (nrows m) as [|n]; [lia|]. destruct (ncols m) as [|c]; [lia|].
  cbn [for_loop]. do 4 apply bind_None. exact Hread.
Qed.

(** Over a struct with a dimension above [INT_MAX] both norms overflow a
    counter; [Matrix_l2] does so without storage too. *)
Lemma norm_loops_overflow {A} (body : nat → nat → A → comp A) n c acc s :
  (0 < n)%nat → ¬ (fits_int n ∧ fits_int c) →
  for_loop 0 n (λ i acc, for_loop 0 c (λ j acc, body i j acc) acc) acc s = None.
Proof.
  intros Hn Hover.
  destruct (decide (Z.of_nat n ≤ INT_MAX)%Z) as [Hfn|Hfn].
  - assert (¬ fits_int c) as Hfc by (intros ?; by apply Hover).
    destruct n as [|n]; [lia|]. cbn [for_loop]. apply bind_None.
    apply for_loop_overflow; [apply fits_int_0|done].
  - apply for_loop_overflow; [apply fits_int_0|done].
Qed.

Lemma Matrix_l1_overflow a m rows s :
  heap s !! a = Some m → vals m = Some rows →
  (0 < nrows m)%nat → (0 < ncols m)%nat → ¬ Matrix_fits m →
  Matrix_l1 (Some a) s = None.
Proof.
  intros Ha Hv Hn Hc Hover. unfold Matrix_l1.
  rewrite (bind_Some _ _ _ _ _ (load_Some _ _ _ Ha)).
  rewrite (l1_guard_false _ _ Hv Hn Hc).
  by apply (norm_loops_overflow (λ i j result,
              let* toAdd := read_val a i j in ret (l1_step toAdd result))).
Qed.

Lemma Matrix_l2_overflow pow pow_errno a m s :
  heap s !! a = Some m → (0 < nrows m)%nat → ¬ Matrix_fits m →
  Matrix_l2 pow pow_errno (Some a) s = None.
Proof.
  intros Ha Hn Hover. unfold Matrix_l2.
  rewrite (bind_Some _ _ _ _ _ (load_Some _ _ _ Ha)). apply bind_None.
  by apply (norm_loops_overflow (λ i j acc,
              let* x := read_val a i j in
              let* sq := call_pow pow pow_errno x 2 in ret (acc + sq))).
Qed.

(** ** Results of addition and multiplication *)

Lemma Matrix_ok_filled n c rows g :
  (0 < n)%nat → (0 < c)%nat → represents n c g rows →
  Matrix_ok (mkMatrix n c (Some rows)).
Proof. intros Hn Hc [Hs _]. unfold Matrix_ok. simpl. auto. Qed.

Lemma Matrix_ok_empty n c :
  n = 0%nat ∨ c = 0%nat → Matrix_ok (mkMatrix n c None).
Proof. done. Qed.

(** What [fresh_fill] returns, whatever the dimensions: a new struct [mr] at
    the first free address, every slot [(i, j)] of which holds [F i j 0]. *)
Lemma fresh_fill_result n c cell F s :
  (∀ i j g rows, (i < n)%nat → (j < c)%nat → represents n c g rows →
    ∃ rows',
      cell (fresh (dom (heap s))) i j
        (with_Matrix (heap s) (errno s) (fresh (dom (heap s)))
           (mkMatrix n c (Some rows)))
      = Some (tt, with_Matrix (heap s) (errno s) (fresh (dom (heap s)))
                    (mkMatrix n c (Some rows')))
      ∧ represents n c (upd2 g i j (F i j (g i j))) rows') →
  fits_int n → fits_int c →
  ∃ mr,
    fresh_fill n c cell s
    = Some (Some (fresh (dom (heap s))),
            with_Matrix (heap s) (errno s) (fresh (dom (heap s))) mr)
    ∧ nrows mr = n ∧ ncols mr = c ∧ Matrix_ok mr
    ∧ ∀ i j, (i < n)%nat → (j < c)%nat → entry_of mr i j = Some (F i j 0).
Proof.
  intros Hcell Hfn Hfc.
  destruct (decide (n = 0%nat ∨ c = 0%nat)) as [Hz|Hnz].
  - exists (mkMatrix n c None). rewrite (fresh_fill_empty _ _ _ _ Hz Hfn).
    split_and!; [done..|]. intros i j Hi Hj. lia.
  - destruct (fresh_fill_spec n c cell F s) as (rows & Hrun & Hrep);
      [lia|lia|done|done|done|].
    exists (mkMatrix n c (Some rows)). rewrite Hrun.
    split_and!; [done..| |].
    + eapply Matrix_ok_filled; [lia|lia|exact Hrep].
    + intros i j Hi Hj. destruct Hrep as [_ Hg]. by apply Hg.
Qed.

Lemma Matrix_add_valid a b ma mb rowsa rowsb s :
  heap s !! a = Some ma → heap s !! b = Some mb →
  stored ma rowsa → stored mb rowsb →
  nrows ma = nrows mb → ncols ma = ncols mb →
  Matrix_fits ma →
  ∃ mr,
    Matrix_add (Some a) (Some b) s
    = Some (Some (fresh (dom (heap s))),
            with_Matrix (heap s) (errno s) (fresh (dom (heap s))) mr)
    ∧ nrows mr = nrows ma ∧ ncols mr = ncols ma ∧ Matrix_ok mr
    ∧ ∀ i j, (i < nrows ma)%nat → (j < ncols ma)%nat →
        entry_of mr i j = Some (elem ma i j + elem mb i j).
Proof.
  intros Ha Hb Hsa Hsb Hn Hc [Hfn Hfc].
  rewrite (Matrix_add_conformant _ _ _ _ _ _ _ Ha Hb (proj1 Hsa) (proj1 Hsb) Hn Hc).
  apply (fresh_fill_result _ _ _ (λ i j _, elem ma i j + elem mb i j));
    [|done|done].
  eapply add_cell_spec; try done.
  apply not_elem_of_dom, is_fresh.
Qed.


Lemma Matrix_mult_valid a b ma mb rowsa rowsb s :
  heap s !! a = Some ma → heap s !! b = Some mb →
  stored ma rowsa → stored mb rowsb →
  nrows ma = ncols mb → ncols ma = nrows mb →
  Matrix_fits ma →
  ∃ mr,
    Matrix_mult (Some a) (Some b) s
    = Some (Some (fresh (dom (heap s))),
            with_Matrix (heap s) (errno s) (fresh (dom (heap s))) mr)
    ∧ nrows mr = nrows ma ∧ ncols mr = ncols mb ∧ Matrix_ok mr
    ∧ ∀ i j, (i < nrows ma)%nat → (j < ncols mb)%nat →
        entry_of mr i j = Some (dot ma mb (ncols ma) i j 0).
Proof.
  intros Ha Hb Hsa Hsb Hn Hc [Hfn Hfc].
  rewrite (Matrix_mult_conformant _ _ _ _ _ _ _ Ha Hb (proj1 Hsa) (proj1 Hsb) Hn Hc).
  apply (fresh_fill_result _ _ _ (λ i j z, dot ma mb (ncols ma) i j z));
    [|done|by rewrite <- Hn].
  eapply mult_cell_spec; try done.
  apply not_elem_of_dom, is_fresh.
Qed.

(** ** What a call can do to [errno] *)

Lemma for_loop_state {A} (body : nat → A → comp A) (count : nat) :
  (∀ i a s a' s', body i a s = Some (a', s') → s' = s) →
  ∀ start a s a' s', for_loop start count body a s = Some (a', s') → s' = s.
Proof.
  intros Hbody. induction count as [|count IH]; intros start a s a' s' H.
  - by injection H as _ <-.
  - simpl in H. apply bind_inv in H as (a1 & s1 & Hb & Hl).
    apply Hbody in Hb as ->. case_decide; [|done]. by eapply IH.
Qed.

Lemma write_val_errno l i j v s s' :
  write_val l i j v s = Some (tt, s') → errno s' = errno s.
Proof.
  unfold write_val. intros H.
  apply bind_inv in H as (m & s1 & [Hl ->]%load_inv & H).
  destruct (vals m) as [rows|]; [|done].
  destruct (rows !! i) as [row|]; [|done].
  case_decide; [|done]. unfold store in H. rewrite Hl in H.
  by injection H as <-.
Qed.

Lemma Matrix_put_errno M i j v s r s' :
  Matrix_put M i j v s = Some (r, s') → errno s' = errno s.
Proof.
  destruct M as [l|]; [|by intros [= _ <-]].
  unfold Matrix_put. intros H.
  apply bind_inv in H as (m & s1 & [Hl ->]%load_inv & H).
  destruct (_ || _) in H; [by injection H as _ <-|].
  apply bind_inv in H as ([] & s1 & Hw & H). injection H as _ <-.
  by eapply write_val_errno.
Qed.

Lemma Matrix_get_inv M i j s x s' :
  Matrix_get M i j s = Some (x, s') →
  (get_fails s M i j ∧ x = 0%float ∧ s' = mkState (heap s) EINVAL)
  ∨ (¬ get_fails s M i j ∧ s' = s).
Proof.
  destruct M as [l|]; [|intros [= <- <-]; by left].
  unfold Matrix_get. intros H.
  apply bind_inv in H as (m & s1 & [Hl ->]%load_inv & H).
  destruct (guard_cases m i j) as [Hbad|(rows & Hv & Hi & Hj)].
  - rewrite (guard_true _ _ _ Hbad) in H. injection H as <- <-.
    left. split; [by exists m|done].
  - rewrite (guard_false _ _ _ _ Hv Hi Hj) in H.
    apply read_val_inv in H as [-> _]. right. split; [|done].
    intros (m' & Hl' & Hbad). simplify_eq.
    destruct Hbad as [?|[?|?]]; [congruence|lia|lia].
Qed.

Lemma Matrix_l1_inv A s x s' :
  Matrix_l1 A s = Some (x, s') →
  (l1_fails s A ∧ x = 0%float ∧ s' = mkState (heap s) EINVAL)
  ∨ (¬ l1_fails s A ∧ s' = s).
Proof.
  destruct A as [a|]; [|intros [= <- <-]; by left].
  unfold Matrix_l1. intros H.
  apply bind_inv in H as (m & s1 & [Hl ->]%load_inv & H).
  destruct (is_null (vals m) || (nrows m <=? 0)%nat || (ncols m <=? 0)%nat)
    eqn:Hg.
  - injection H as <- <-. left. split; [|done]. exists m. split; [done|].
    apply orb_true_iff in Hg as [Hg|Hg]; [apply orb_true_iff in Hg as [Hg|Hg]|].
    + left. by destruct (vals m).
    + right. left. by apply Nat.leb_le.
    + right. right. by apply Nat.leb_le.
  - right. split.
    + intros (m' & Hl' & Hbad). simplify_eq.
      by rewrite (l1_guard_true _ Hbad) in Hg.
    + eapply for_loop_state; [|exact H].
      intros i acc s1 acc' s2 Hin. eapply for_loop_state; [|exact Hin].
      intros j acc1 s3 acc2 s4 Hb.
      apply bind_inv in Hb as (y & s5 & [-> _]%read_val_inv & Hr).
      by injection Hr as _ <-.
Qed.

(** ** The calls return *)

Lemma Matrix_get_returns M i j s :
  handle_ok s M → is_Some (Matrix_get M i j s).
Proof.
  destruct M as [l|]; [|by eexists]. intros (m & Hl & Hs).
  destruct (guard_cases m i j) as [Hbad|(rows & Hv & Hi & Hj)].
  - rewrite (Matrix_get_invalid _ _ _ _ _ Hl Hbad). by eexists.
  - destruct (Matrix_get_valid l m rows i j s) as (x & _ & ->);
      [done|by split; auto|done..|]. by eexists.
Qed.

Lemma Matrix_put_returns M i j v s :
  handle_ok s M → is_Some (Matrix_put M i j v s).
Proof.
  destruct M as [l|]; [|by eexists]. intros (m & Hl & Hs).
  destruct (guard_cases m i j) as [Hbad|(rows & Hv & Hi & Hj)].
  - rewrite (Matrix_put_invalid _ _ _ _ _ _ Hl Hbad). by eexists.
  - rewrite (Matrix_put_valid l m rows i j v s); [by eexists|done| |done..].
    by split; auto.
Qed.

Lemma Matrix_l1_returns A s :
  handle_ok s A → handle_fits s A → is_Some (Matrix_l1 A s).
Proof.
  destruct A as [a|]; [|by eexists]. intros (m & Ha & Hs) Hfit.
  destruct (vals m) as [rows|] eqn:Hv.
  - destruct (decide (0 < nrows m ∧ 0 < ncols m)%nat) as [[Hn Hc]|Hz].
    + rewrite (Matrix_l1_valid a m rows s); [by eexists|done| |by apply Hfit|done..].
      by split; auto.
    + rewrite (Matrix_l1_invalid a m s); [by eexists|done|]. right. lia.
  - rewrite (Matrix_l1_invalid a m s); [by eexists|done|by left].
Qed.

(** ** Reading a new matrix *)

Lemma Matrix_get_zeros l r c i j s :
  heap s !! l = Some (mkMatrix r c (Some (zeros r c))) →
  (i < r)%nat → (j < c)%nat →
  Matrix_get (Some l) i j s = Some (0, s).
Proof.
  intros Hl Hi Hj.
  destruct (Matrix_get_valid l _ (zeros r c) i j s Hl) as (x & Hx & Hget);
    [by split; [|apply shaped_zeros]|done..|].
  rewrite entry_zeros in Hx by done. by injection Hx as <-.
Qed.

Lemma init_Matrix_live l m r c s :
  heap s !! l = Some m →
  ((0 < r)%nat → (0 < c)%nat → fits_int r) →
  init_Matrix (Some l) r c s
  = Some (tt, with_Matrix (heap s) (errno s) l (init_result r c)).
Proof.
  intros Hl Hfit. rewrite (state_as_with s l m Hl) at 1.
  by apply init_Matrix_with.
Qed.

(** ** The invariant of the structs the library builds *)

Lemma Matrix_ok_init_result r c : Matrix_ok (init_result r c).
Proof.
  destruct (decide (r = 0%nat ∨ c = 0%nat)) as [Hz|Hnz].
  - rewrite (init_result_empty _ _ Hz). by apply Matrix_ok_empty.
  - rewrite init_result_zeros by lia. unfold Matrix_ok. simpl.
    split_and!; [lia..|]. apply shaped_zeros.
Qed.

Lemma Matrix_ok_put_result m rows i j v :
  Matrix_ok m → vals m = Some rows → Matrix_ok (put_result m rows i j v).
Proof.
  unfold Matrix_ok. intros Hok Hv. rewrite Hv in Hok. simpl.
  destruct Hok as (? & ? & ?). split_and!; [done..|]. by apply shaped_update.
Qed.

Lemma Matrix_ok_stored m rows : Matrix_ok m → vals m = Some rows → stored m rows.
Proof.
  unfold Matrix_ok. intros Hok Hv. rewrite Hv in Hok. split; [done|].
  by destruct Hok as (_ & _ & ?).
Qed.

(** * The specification's claims *)

(** The sample state is what the API leaves after building its four
    matrices on an empty heap. *)
Example sample_state_built :
  (let* A := build_2x2 (-1) 2 3 (-4) in
   let* Id := build_2x2 1 0 0 1 in
   let* B := build_2x2 1 2 3 4 in
   let* E := new_Matrix 0 0 in
   ret [A; Id; B; E]) (mkState ∅ 0)
  = Some ([Some 1%positive; Some 2%positive; Some 3%positive; Some 4%positive],
          sample_state).
Proof. vm_compute. reflexivity. Qed.

(** ** Construction *)

(** X14: for every [r > 0] that does not exceed [INT_MAX] and every [c > 0],
    [new_Matrix r c] returns a handle to a new struct with storage of [r]
    rows and [c] columns, every entry of which is zero: [Matrix_get] returns
    [0.0] for every index in range and leaves [errno] as it was.
    [init_Matrix] leaves the same in the struct it is given. *)
Theorem new_Matrix_zero_filled (r c : nat) (s : state) :
  (0 < r)%nat → (0 < c)%nat → fits_int r →
  shaped r c (zeros r c)
  ∧ (∃ l s',
       new_Matrix r c s = Some (Some l, s')
       ∧ heap s !! l = None
       ∧ heap s' = <[l := mkMatrix r c (Some (zeros r c))]> (heap s)
       ∧ errno s' = errno s
       ∧ ∀ i j, (i < r)%nat → (j < c)%nat →
           Matrix_get (Some l) i j s' = Some (0, s'))
  ∧ (∀ l m, heap s !! l = Some m →
       ∃ s',
         init_Matrix (Some l) r c s = Some (tt, s')
         ∧ heap s' = <[l := mkMatrix r c (Some (zeros r c))]> (heap s)
         ∧ errno s' = errno s
         ∧ ∀ i j, (i < r)%nat → (j < c)%nat →
             Matrix_get (Some l) i j s' = Some (0, s')).
Proof.
  intros Hr Hc Hfit. split_and!; [apply shaped_zeros| |].
  - destruct (new_Matrix_spec r c s) as [Hfresh Hnew]; [done|].
    rewrite (init_result_zeros _ _ Hr Hc) in Hnew.
    eexists _, _. split; [exact Hnew|]. split_and!; [done..|].
    intros i j Hi Hj. apply (Matrix_get_zeros _ r c); [|done..].
    apply lookup_insert_eq.
  - intros l m Hl. eexists. split; [by eapply init_Matrix_live|].
    rewrite (init_result_zeros _ _ Hr Hc). split_and!; [done..|].
    intros i j Hi Hj. apply (Matrix_get_zeros _ r c); [|done..].
    apply lookup_insert_eq.
Qed.

Lemma new_Matrix_zero_filled_witness :
  ∃ l s',
    new_Matrix 2 3 sample_state = Some (Some l, s')
    ∧ heap sample_state !! l = None
    ∧ heap s' = <[l := mkMatrix 2 3 (Some (zeros 2 3))]> (heap sample_state)
    ∧ errno s' = errno sample_state
    ∧ ∀ i j, (i < 2)%nat → (j < 3)%nat →
        Matrix_get (Some l) i j s' = Some (0, s').
Proof.
  apply (new_Matrix_zero_filled 2 3 sample_state); [lia|lia|].
  unfold fits_int, INT_MAX. lia.
Defined.

(** C3, where the code departs from it: with 2147483649 rows, a count above
    [INT_MAX], and any positive number of columns, neither [new_Matrix] nor
    [init_Matrix] on a live handle gives a zero matrix.  The [int] counter of
    the loop that allocates the rows is incremented beyond [INT_MAX], which is
    undefined behaviour. *)
Theorem new_Matrix_rows_overflow (c : nat) (s : state) :
  new_Matrix beyond_int (S c) s = None
  ∧ (∀ l m, heap s !! l = Some m →
       init_Matrix (Some l) beyond_int (S c) s = None).
Proof.
  destruct beyond_int_spec as [Hover Hpos]. split.
  - apply new_Matrix_overflow; [done|lia|done].
  - intros l m Hl. rewrite (state_as_with s l m Hl) at 1.
    apply init_Matrix_overflow; [done|lia|done].
Qed.

(** C8: when [r] or [c] is zero, [new_Matrix r c] returns a handle to a new
    struct without storage ([vals] is [NULL]) that records [r] and [c] as
    given, and every [Matrix_get] on it, whatever the indices, returns [0.0]
    and sets [errno] to [EINVAL].  [init_Matrix] leaves the same in the
    struct it is given. *)
Theorem new_Matrix_no_storage (r c : nat) (s : state) :
  (r ≤ 0)%nat ∨ (c ≤ 0)%nat →
  (∃ l s',
     new_Matrix r c s = Some (Some l, s')
     ∧ heap s !! l = None
     ∧ heap s' = <[l := mkMatrix r c None]> (heap s)
     ∧ errno s' = errno s
     ∧ ∀ i j, Matrix_get (Some l) i j s' = Some (0, mkState (heap s') EINVAL))
  ∧ (∀ l m, heap s !! l = Some m →
       ∃ s',
         init_Matrix (Some l) r c s = Some (tt, s')
         ∧ heap s' = <[l := mkMatrix r c None]> (heap s)
         ∧ errno s' = errno s
         ∧ ∀ i j, Matrix_get (Some l) i j s'
                  = Some (0, mkState (heap s') EINVAL)).
Proof.
  intros Hz. split.
  - destruct (new_Matrix_spec r c s) as [Hfresh Hnew]; [lia|].
    rewrite init_result_empty in Hnew by lia.
    eexists _, _. split; [exact Hnew|]. split_and!; [done..|].
    intros i j. eapply Matrix_get_invalid; [apply lookup_insert_eq|by left].
  - intros l m Hl. eexists. split; [eapply init_Matrix_live; [done|lia]|].
    rewrite init_result_empty by lia. split_and!; [done..|].
    intros i j. eapply Matrix_get_invalid; [apply lookup_insert_eq|by left].
Qed.

Lemma new_Matrix_no_storage_witness :
  ∃ l s',
    new_Matrix 0 5 sample_state = Some (Some l, s')
    ∧ heap sample_state !! l = None
    ∧ heap s' = <[l := mkMatrix 0 5 None]> (heap sample_state)
    ∧ errno s' = errno sample_state
    ∧ ∀ i j, Matrix_get (Some l) i j s' = Some (0, mkState (heap s') EINVAL).
Proof. apply (new_Matrix_no_storage 0 5 sample_state). left. lia. Defined.

(** ** Element access *)

(** C4: on a struct with storage and for an index in range, [Matrix_put]
    returns [0] and a following [Matrix_get] at the same index returns the
    value put; the dimensions, every other entry, every other struct and
    [errno] are as before. *)
Theorem Matrix_put_get_roundtrip (l : loc) (m : Matrix)
    (rows : list (list float)) (i j : nat) (v : float) (s : state) :
  heap s !! l = Some m → stored m rows →
  (i < nrows m)%nat → (j < ncols m)%nat →
  ∃ s' m',
    Matrix_put (Some l) i j v s = Some (0%Z, s')
    ∧ Matrix_get (Some l) i j s' = Some (v, s')
    ∧ heap s' = <[l := m']> (heap s)
    ∧ errno s' = errno s
    ∧ nrows m' = nrows m ∧ ncols m' = ncols m
    ∧ (∀ i' j', (i', j') ≠ (i, j) → entry_of m' i' j' = entry_of m i' j')
    ∧ (∀ i' j' x, (i', j') ≠ (i, j) →
         Matrix_get (Some l) i' j' s = Some (x, s) →
         Matrix_get (Some l) i' j' s' = Some (x, s')).
Proof.
  intros Hl Hst Hi Hj.
  exists (with_Matrix (heap s) (errno s) l (put_result m rows i j v)),
         (put_result m rows i j v).
  pose proof (stored_put_result _ _ i j v Hst) as Hst'.
  assert (heap (with_Matrix (heap s) (errno s) l (put_result m rows i j v)) !! l
          = Some (put_result m rows i j v)) as Hl' by apply lookup_insert_eq.
  assert (∀ i' j', (i', j') ≠ (i, j) →
            entry_of (put_result m rows i j v) i' j' = entry_of m i' j') as Hother.
  { intros i' j' Hne. unfold entry_of. simpl. rewrite (proj1 Hst).
    by apply entry_update_ne. }
  split_and!; try done.
  - by eapply Matrix_put_valid.
  - destruct (Matrix_get_valid _ _ _ i j _ Hl' Hst') as (x & Hx & Hget);
      [done..|].
    rewrite entry_update_eq in Hx.
    + by injection Hx as <-.
    + destruct Hst as [_ Hs]. by eapply shaped_entry.
  - intros i' j' x Hne Hget.
    destruct (Matrix_get_inv _ _ _ _ _ _ Hget) as [(_ & _ & Hs)|[Hok _]].
    + destruct (guard_cases m i' j') as [Hbad|(rows' & Hv & Hi' & Hj')].
      * rewrite (Matrix_get_invalid _ _ _ _ _ Hl Hbad) in Hget.
        injection Hget as <- Hs'.
        assert (errno s = EINVAL) as He by by rewrite <- Hs'.
        erewrite Matrix_get_invalid; [|exact Hl'|].
        -- simpl. by rewrite <- He.
        -- destruct Hbad as [Hv|Hd]; [|by right].
           destruct Hst as [Hv' _]. congruence.
      * destruct (Matrix_get_valid _ _ _ i' j' _ Hl Hst Hi' Hj')
          as (y & Hy & Hget').
        rewrite Hget' in Hget. injection Hget as <-.
        destruct (Matrix_get_valid _ _ _ i' j' _ Hl' Hst' Hi' Hj')
          as (z & Hz & Hget'').
        rewrite entry_update_ne in Hz by done. by simplify_eq.
    + destruct (guard_cases m i' j') as [Hbad|(rows' & Hv & Hi' & Hj')].
      * destruct Hok. by exists m.
      * destruct (Matrix_get_valid _ _ _ i' j' _ Hl Hst Hi' Hj')
          as (y & Hy & Hget').
        rewrite Hget' in Hget. injection Hget as <-.
        destruct (Matrix_get_valid _ _ _ i' j' _ Hl' Hst' Hi' Hj')
          as (z & Hz & Hget'').
        rewrite entry_update_ne in Hz by done. by simplify_eq.
Qed.

Lemma Matrix_put_get_roundtrip_witness :
  ∃ s' m',
    Matrix_put (Some 1%positive) 0 1 7 sample_state = Some (0%Z, s')
    ∧ Matrix_get (Some 1%positive) 0 1 s' = Some (7, s')
    ∧ heap s' = <[1%positive := m']> (heap sample_state)
    ∧ errno s' = errno sample_state
    ∧ nrows m' = nrows A_sample ∧ ncols m' = ncols A_sample
    ∧ (∀ i' j', (i', j') ≠ (0%nat, 1%nat) →
         entry_of m' i' j' = entry_of A_sample i' j')
    ∧ (∀ i' j' x, (i', j') ≠ (0%nat, 1%nat) →
         Matrix_get (Some 1%positive) i' j' sample_state = Some (x, sample_state) →
         Matrix_get (Some 1%positive) i' j' s' = Some (x, s')).
Proof.
  apply (Matrix_put_get_roundtrip 1%positive A_sample [[-1; 2]; [3; -4]]
           0 1 7 sample_state).
  - reflexivity.
  - split; [reflexivity|]. split; [reflexivity|]. by repeat constructor.
  - simpl. lia.
  - simpl. lia.
Defined.

(** C5: when the handle is [NULL], the struct has no storage, or an index is
    not below its dimension, [Matrix_get] returns [0.0] and sets [errno] to
    [EINVAL], and [Matrix_put] returns [1] and writes nothing; in every other
    case [Matrix_put] stores the value and returns [0]. *)
Theorem access_guards (M : ptr) (i j : nat) (v : float) (s : state) :
  (M = None →
     Matrix_get M i j s = Some (0, mkState (heap s) EINVAL)
     ∧ Matrix_put M i j v s = Some (1%Z, s))
  ∧ ∀ l m, M = Some l → heap s !! l = Some m →
      (out_of_range m i j →
         Matrix_get M i j s = Some (0, mkState (heap s) EINVAL)
         ∧ Matrix_put M i j v s = Some (1%Z, s))
      ∧ (¬ out_of_range m i j →
           ∃ rows, vals m = Some rows ∧ (i < nrows m)%nat ∧ (j < ncols m)%nat
             ∧ (shaped (nrows m) (ncols m) rows →
                  Matrix_put M i j v s
                  = Some (0%Z, mkState
                                 (<[l := mkMatrix (nrows m) (ncols m)
                                           (Some (update rows i j v))]> (heap s))
                                 (errno s))
                  ∧ entry (update rows i j v) i j = Some v)).
Proof.
  split.
  - intros ->. split; reflexivity.
  - intros l m -> Hl. split.
    + intros Hbad. split.
      * by apply Matrix_get_invalid with m.
      * by apply Matrix_put_invalid with m.
    + intros Hok. destruct (guard_cases m i j) as [?|(rows & Hv & Hi & Hj)];
        [done|].
      exists rows. split_and!; [done..|]. intros Hs. split.
      * by apply Matrix_put_valid.
      * apply entry_update_eq. by eapply shaped_entry.
Qed.

Lemma access_guards_witness :
  Matrix_get (Some 1%positive) 2 0 sample_state
  = Some (0, mkState (heap sample_state) EINVAL)
  ∧ Matrix_put (Some 1%positive) 2 0 5 sample_state = Some (1%Z, sample_state).
Proof.
  apply (access_guards (Some 1%positive) 2 0 5 sample_state)
    with (l := 1%positive) (m := A_sample).
  - reflexivity.
  - reflexivity.
  - right. left. simpl. lia.
Defined.

(** ** Teardown *)

(** C9: [deinit_Matrix] does nothing on a [NULL] handle and nothing on a
    struct without storage; on a struct with storage (of at most [INT_MAX]
    rows, as every struct with storage the library built has) it leaves
    [nrows = 0], [ncols = 0] and [vals = NULL], so that a second
    [deinit_Matrix] changes nothing; [delete_Matrix] on a [NULL] handle does
    nothing either. *)
Theorem teardown_idempotent (s : state) :
  deinit_Matrix None s = Some (tt, s)
  ∧ delete_Matrix None s = Some (tt, s)
  ∧ (∀ l m, heap s !! l = Some m → vals m = None →
       deinit_Matrix (Some l) s = Some (tt, s))
  ∧ (∀ l m rows, heap s !! l = Some m → stored m rows → fits_int (nrows m) →
       ∃ s', deinit_Matrix (Some l) s = Some (tt, s')
             ∧ heap s' = <[l := mkMatrix 0 0 None]> (heap s)
             ∧ errno s' = errno s
             ∧ deinit_Matrix (Some l) s' = Some (tt, s')).
Proof.
  split_and!; [done|done| |].
  - intros l m. apply deinit_Matrix_no_storage.
  - intros l m rows Hl Hst Hfit.
    exists (with_Matrix (heap s) (errno s) l (mkMatrix 0 0 None)).
    split_and!; [by eapply deinit_Matrix_storage|done|done|].
    eapply deinit_Matrix_no_storage; [apply lookup_insert_eq|done].
Qed.

Lemma teardown_idempotent_witness :
  ∃ s', deinit_Matrix (Some 1%positive) sample_state = Some (tt, s')
        ∧ heap s' = <[1%positive := mkMatrix 0 0 None]> (heap sample_state)
        ∧ errno s' = errno sample_state
        ∧ deinit_Matrix (Some 1%positive) s' = Some (tt, s').
Proof.
  apply (teardown_idempotent sample_state) with (m := A_sample)
                                                (rows := [[-1; 2]; [3; -4]]).
  - reflexivity.
  - split; [reflexivity|]. split; [reflexivity|]. by repeat constructor.
  - unfold fits_int, INT_MAX. simpl. lia.
Defined.

(** ** The error channel *)

(** C10: [Matrix_put] never changes [errno]; [Matrix_get] and [Matrix_l1]
    change it on their failure branches only, to [EINVAL], and leave the whole
    state alone when they succeed.  A failing [Matrix_get] that finds [errno]
    already at [EINVAL] therefore ends in the very state and with the very
    value of a successful read of [0.0]: only a caller that cleared [errno]
    beforehand can tell the two apart.  On every handle a caller may pass,
    [Matrix_put] and [Matrix_get] do return, and so does [Matrix_l1] when the
    dimensions of the struct do not exceed [INT_MAX]. *)
Theorem errno_discipline (M : ptr) (i j : nat) (v : float) (s : state) :
  (∀ r s', Matrix_put M i j v s = Some (r, s') → errno s' = errno s)
  ∧ (∀ x s', Matrix_get M i j s = Some (x, s') →
       (get_fails s M i j ∧ x = 0%float ∧ s' = mkState (heap s) EINVAL)
       ∨ (¬ get_fails s M i j ∧ s' = s))
  ∧ (∀ x s', Matrix_l1 M s = Some (x, s') →
       (l1_fails s M ∧ x = 0%float ∧ s' = mkState (heap s) EINVAL)
       ∨ (¬ l1_fails s M ∧ s' = s))
  ∧ (errno s = EINVAL → get_fails s M i j → Matrix_get M i j s = Some (0, s))
  ∧ (handle_ok s M →
       is_Some (Matrix_put M i j v s) ∧ is_Some (Matrix_get M i j s)
       ∧ (handle_fits s M → is_Some (Matrix_l1 M s))).
Proof.
  split_and!.
  - intros r s'. apply Matrix_put_errno.
  - intros x s'. apply Matrix_get_inv.
  - intros x s'. apply Matrix_l1_inv.
  - intros He Hf. destruct s as [h e]. simpl in He. subst e.
    destruct M as [l|]; [|done]. destruct Hf as (m & Hl & Hbad).
    by rewrite (Matrix_get_invalid _ _ _ _ _ Hl Hbad).
  - intros Hok. split_and!;
      [by apply Matrix_put_returns|by apply Matrix_get_returns
      |by apply Matrix_l1_returns].
Qed.

Lemma errno_discipline_witness :
  errno (mkState (<[1%positive := put_result A_sample [[-1; 2]; [3; -4]] 0 0 0]>
                    sample_heap) 0)
  = errno sample_state.
Proof.
  apply (proj1 (errno_discipline (Some 1%positive) 0 0 0 sample_state) 0%Z).
  reflexivity.
Defined.

(** ** Norms *)

(** X15: on a [NULL] handle and on a struct without storage, [Matrix_l1]
    returns [0.0] and sets [errno] to [EINVAL], while [Matrix_l2] returns
    [0.0] and touches nothing: on [NULL] through its one guard, on a struct
    without storage as the API builds it (a dimension is zero, e.g. after
    [new_Matrix 0 0]) and of at most [INT_MAX] rows by running loops that
    have no entry to visit.  That null test is the only guard of [Matrix_l2]:
    with positive recorded dimensions and [vals = NULL] it reads through the
    null pointer. *)
Theorem norm_guards_asymmetry (pow : float → float → float)
    (pow_errno : float → float → option Z) (s : state) :
  (Matrix_l1 None s = Some (0, mkState (heap s) EINVAL)
   ∧ Matrix_l2 pow pow_errno None s = Some (0, s))
  ∧ (∀ a m, heap s !! a = Some m → vals m = None → Matrix_ok m →
       fits_int (nrows m) →
       Matrix_l1 (Some a) s = Some (0, mkState (heap s) EINVAL)
       ∧ Matrix_l2 pow pow_errno (Some a) s = Some (0, s))
  ∧ (∀ r c, r = 0%nat ∨ c = 0%nat → fits_int r →
       ∃ l s', new_Matrix r c s = Some (Some l, s')
               ∧ Matrix_l1 (Some l) s' = Some (0, mkState (heap s') EINVAL)
               ∧ Matrix_l2 pow pow_errno (Some l) s' = Some (0, s'))
  ∧ (∀ a m, heap s !! a = Some m → vals m = None →
       (0 < nrows m)%nat → (0 < ncols m)%nat →
       Matrix_l1 (Some a) s = Some (0, mkState (heap s) EINVAL)
       ∧ Matrix_l2 pow pow_errno (Some a) s = None).
Proof.
  split; [done|]. split_and!.
  - intros a m Ha Hv Hok Hfit. split.
    + eapply Matrix_l1_invalid; [done|by left].
    + eapply Matrix_l2_no_storage; [done| |done].
      unfold Matrix_ok in Hok. by rewrite Hv in Hok.
  - intros r c Hz Hfit. destruct (new_Matrix_spec r c s) as [_ Hnew]; [done|].
    rewrite (init_result_empty _ _ Hz) in Hnew.
    eexists _, _. split; [exact Hnew|]. split.
    + eapply Matrix_l1_invalid; [apply lookup_insert_eq|by left].
    + eapply Matrix_l2_no_storage; [apply lookup_insert_eq|done..].
  - intros a m Ha Hv Hn Hc. split.
    + eapply Matrix_l1_invalid; [done|by left].
    + by eapply Matrix_l2_null_vals.
Qed.

Lemma norm_guards_asymmetry_witness :
  Matrix_l1 (Some 4%positive) sample_state
  = Some (0, mkState (heap sample_state) EINVAL)
  ∧ Matrix_l2 (λ x _, x * x) (λ _ _, None) (Some 4%positive) sample_state
    = Some (0, sample_state).
Proof.
  apply (norm_guards_asymmetry (λ x _, x * x) (λ _ _, None) sample_state)
    with (m := empty_sample).
  - reflexivity.
  - reflexivity.
  - by left.
  - apply fits_int_0.
Defined.


(** X16: on a struct with storage and positive dimensions that do not exceed
    [INT_MAX], [Matrix_l1] returns the sum of the absolute values of all
    entries and leaves the state alone, and [Matrix_l2] returns the square
    root of the sum of their squares and leaves the heap alone, and [errno]
    too when no call of [pow] writes it and the sum is not below zero; both
    sums are taken in doubles, from [0.0], in row-major order.  For [[-1, 2], [3, -4]] the results are [10.0]
    and [sqrt 30], as soon as [pow] squares these four entries exactly. *)
Theorem norms_spec (pow : float → float → float)
    (pow_errno : float → float → option Z) (s : state) (a : loc)
    (m : Matrix) (rows : list (list float)) :
  heap s !! a = Some m → stored m rows → Matrix_fits m →
  (0 < nrows m)%nat → (0 < ncols m)%nat →
  Matrix_l1 (Some a) s = Some (sum_abs (concat rows), s)
  ∧ (∃ s', Matrix_l2 pow pow_errno (Some a) s
           = Some (sqrt (sum_squares pow (concat rows)), s')
           ∧ heap s' = heap s)
  ∧ ((∀ x, x ∈ concat rows → pow_errno x 2%float = None) →
       (sum_squares pow (concat rows) <? 0) = false →
       Matrix_l2 pow pow_errno (Some a) s
       = Some (sqrt (sum_squares pow (concat rows)), s))
  ∧ (rows = [[-1; 2]; [3; -4]] →
       pow (-1) 2 = 1 → pow 2 2 = 4 → pow 3 2 = 9 → pow (-4) 2 = 16 →
       Matrix_l1 (Some a) s = Some (10, s)
       ∧ ∃ s', Matrix_l2 pow pow_errno (Some a) s = Some (sqrt 30, s')
               ∧ heap s' = heap s).
Proof.
  intros Ha Hst Hfit Hn Hc.
  pose proof (Matrix_l1_valid _ _ _ _ Ha Hst Hfit Hn Hc) as H1.
  destruct (Matrix_l2_valid pow pow_errno _ _ _ _ Ha Hst Hfit) as (s' & H2 & Hs').
  split_and!; [done|by exists s'|by apply (Matrix_l2_quiet _ _ a m)|].
  intros -> P1 P2 P3 P4. rewrite H1, H2. split; [reflexivity|].
  exists s'. split; [|done].
  unfold sum_squares. simpl. rewrite P1, P2, P3, P4. reflexivity.
Qed.

Lemma norms_spec_witness :
  Matrix_l1 (Some 1%positive) sample_state = Some (10, sample_state)
  ∧ ∃ s', Matrix_l2 (λ x _, x * x) (λ _ _, None) (Some 1%positive) sample_state
          = Some (sqrt 30, s')
          ∧ heap s' = heap sample_state.
Proof.
  apply (norms_spec (λ x _, x * x) (λ _ _, None) sample_state 1%positive
           A_sample [[-1; 2]; [3; -4]]); try reflexivity.
  - split; [reflexivity|]. split; [reflexivity|]. by repeat constructor.
  - apply Matrix_fits_sample.
  - simpl. lia.
  - simpl. lia.
Defined.

(** C6, where the code departs from it: a matrix of 1 row and 2147483649
    columns, a count above [INT_MAX], with [1.0] put in its last column, has
    storage and positive dimensions, yet neither [Matrix_l1] nor [Matrix_l2]
    returns its norm ([1.0] for both).  The second loop of either function
    increments its [int] counter beyond [INT_MAX], which is undefined
    behaviour. *)
Theorem norms_columns_overflow (pow : float → float → float)
    (pow_errno : float → float → option Z) (s : state) :
  (∃ l s' rows,
     (let* A := new_Matrix 1 beyond_int in
      Matrix_put A 0 (beyond_int - 1) 1;;; ret A) s = Some (Some l, s')
     ∧ heap s' !! l = Some (mkMatrix 1 beyond_int (Some rows))
     ∧ shaped 1 beyond_int rows
     ∧ Matrix_l1 (Some l) s' = None
     ∧ Matrix_l2 pow pow_errno (Some l) s' = None)
  ∧ (let* A := new_Matrix 1 beyond_int in
     Matrix_put A 0 (beyond_int - 1) 1;;; Matrix_l1 A) s = None
  ∧ (let* A := new_Matrix 1 beyond_int in
     Matrix_put A 0 (beyond_int - 1) 1;;; Matrix_l2 pow pow_errno A) s = None.
Proof.
  destruct beyond_int_spec as [Hover Hpos].
  destruct (new_Matrix_spec 1 beyond_int s) as [_ Hnew];
    [intros _ _; unfold fits_int, INT_MAX; lia|].
  rewrite (init_result_zeros 1 beyond_int (Nat.lt_0_1) Hpos) in Hnew.
  pose proof (Matrix_put_valid (fresh (dom (heap s)))
                (mkMatrix 1 beyond_int (Some (zeros 1 beyond_int)))
                (zeros 1 beyond_int) 0 (beyond_int - 1) 1
                (with_Matrix (heap s) (errno s) (fresh (dom (heap s)))
                   (mkMatrix 1 beyond_int (Some (zeros 1 beyond_int))))
                (lookup_insert_eq _ _ _)
                (conj eq_refl (shaped_zeros 1 beyond_int))
                Nat.lt_0_1 (Nat.sub_lt _ _ Hpos Nat.lt_0_1)) as Hput.
  set (l := fresh (dom (heap s))) in *.
  set (rows := update (zeros 1 beyond_int) 0 (beyond_int - 1) 1).
  set (s2 := with_Matrix _ _ l (put_result _ _ _ _ _)) in Hput.
  assert (heap s2 !! l = Some (mkMatrix 1 beyond_int (Some rows))) as Hl2
    by apply lookup_insert_eq.
  assert (¬ Matrix_fits (mkMatrix 1 beyond_int (Some rows))) as Hunfit.
  { intros [_ H]. exact (Hover H). }
  assert (Matrix_l1 (Some l) s2 = None) as H1.
  { eapply Matrix_l1_overflow;
      [exact Hl2|reflexivity|exact Nat.lt_0_1|exact Hpos|exact Hunfit]. }
  assert (Matrix_l2 pow pow_errno (Some l) s2 = None) as H2.
  { eapply Matrix_l2_overflow; [exact Hl2|exact Nat.lt_0_1|exact Hunfit]. }
  split; [|split].
  - exists l, s2, rows.
    split; [|split; [exact Hl2|split; [|split; [exact H1|exact H2]]]].
    + rewrite (bind_Some _ _ _ _ _ Hnew).
      rewrite (bind_Some _ _ _ _ _ Hput). reflexivity.
    + apply shaped_update, shaped_zeros.
  - rewrite (bind_Some _ _ _ _ _ Hnew).
    rewrite (bind_Some _ _ _ _ _ Hput). exact H1.
  - rewrite (bind_Some _ _ _ _ _ Hnew).
    rewrite (bind_Some _ _ _ _ _ Hput). exact H2.
Qed.

(** ** Addition *)

(** X17: on operands whose dimensions do not exceed [INT_MAX], [Matrix_add]
    returns [NULL] exactly when a handle is [NULL], a struct has no storage,
    or the row counts or the column counts differ, and then changes nothing;
    otherwise it returns a handle that was not in use, to a struct of the
    dimensions of [A] and [B] whose entry [(i, j)] is [A[i][j] + B[i][j]], and
    [A], [B], every other struct and [errno] are as before. *)
Theorem Matrix_add_spec (A B : ptr) (s : state) :
  (A = None ∨ B = None → Matrix_add A B s = Some (None, s))
  ∧ ∀ a b ma mb,
      A = Some a → B = Some b → heap s !! a = Some ma → heap s !! b = Some mb →
      (vals ma = None ∨ vals mb = None → Matrix_add A B s = Some (None, s))
      ∧ ∀ rowsa rowsb, stored ma rowsa → stored mb rowsb →
          Matrix_fits ma → Matrix_fits mb →
          ∃ res s',
            Matrix_add A B s = Some (res, s')
            ∧ (res = None ↔ nrows ma ≠ nrows mb ∨ ncols ma ≠ ncols mb)
            ∧ (res = None → s' = s)
            ∧ ∀ l, res = Some l →
                heap s !! l = None
                ∧ ∃ mr,
                    s' = mkState (<[l := mr]> (heap s)) (errno s)
                    ∧ heap s' !! a = Some ma ∧ heap s' !! b = Some mb
                    ∧ nrows mr = nrows ma ∧ ncols mr = ncols ma
                    ∧ nrows mr = nrows mb ∧ ncols mr = ncols mb
                    ∧ Matrix_ok mr
                    ∧ ∀ i j, (i < nrows mr)%nat → (j < ncols mr)%nat →
                        entry_of mr i j = Some (elem ma i j + elem mb i j).
Proof.
  split.
  - intros [-> | ->]; [apply Matrix_add_null_l|apply Matrix_add_null_r].
  - intros a b ma mb -> -> Ha Hb. split.
    + intros Hv. by eapply Matrix_add_no_storage.
    + intros rowsa rowsb Hsa Hsb Hfa Hfb.
      destruct (decide (nrows ma = nrows mb ∧ ncols ma = ncols mb))
        as [[Hn Hc]|Hd].
      * destruct (Matrix_add_valid _ _ _ _ _ _ _ Ha Hb Hsa Hsb Hn Hc Hfa)
          as (mr & Hrun & Hnr & Hnc & Hok & Hent).
        assert (heap s !! fresh (dom (heap s)) = None) as Hfresh
          by apply not_elem_of_dom, is_fresh.
        eexists _, _. split; [exact Hrun|]. split_and!.
        -- split; [done|]. intros [?|?]; congruence.
        -- done.
        -- intros l [= <-]. split; [done|]. exists mr.
           split_and!; try done; try congruence.
           ++ simpl. rewrite lookup_insert_ne; [done|congruence].
           ++ simpl. rewrite lookup_insert_ne; [done|congruence].
           ++ intros i j Hi Hj. apply Hent; congruence.
      * assert (nrows ma ≠ nrows mb ∨ ncols ma ≠ ncols mb) as Hd'.
        { destruct (decide (nrows ma = nrows mb)); [|by left].
          right. intros ?. by apply Hd. }
        exists None, s. split_and!; try done.
        by eapply Matrix_add_mismatch.
Qed.

Lemma Matrix_add_spec_witness :
  ∃ res s',
    Matrix_add (Some 1%positive) (Some 3%positive) sample_state = Some (res, s')
    ∧ (res = None ↔ nrows A_sample ≠ nrows B_sample
                    ∨ ncols A_sample ≠ ncols B_sample)
    ∧ (res = None → s' = sample_state)
    ∧ ∀ l, res = Some l →
        heap sample_state !! l = None
        ∧ ∃ mr,
            s' = mkState (<[l := mr]> (heap sample_state)) (errno sample_state)
            ∧ heap s' !! 1%positive = Some A_sample
            ∧ heap s' !! 3%positive = Some B_sample
            ∧ nrows mr = nrows A_sample ∧ ncols mr = ncols A_sample
            ∧ nrows mr = nrows B_sample ∧ ncols mr = ncols B_sample
            ∧ Matrix_ok mr
            ∧ ∀ i j, (i < nrows mr)%nat → (j < ncols mr)%nat →
                entry_of mr i j = Some (elem A_sample i j + elem B_sample i j).
Proof.
  apply (proj2 (Matrix_add_spec (Some 1%positive) (Some 3%positive) sample_state)
           1%positive 3%positive A_sample B_sample
           eq_refl eq_refl eq_refl eq_refl)
    with (rowsa := [[-1; 2]; [3; -4]]) (rowsb := [[1; 2]; [3; 4]]).
  - split; [reflexivity|]. split; [reflexivity|]. by repeat constructor.
  - split; [reflexivity|]. split; [reflexivity|]. by repeat constructor.
  - apply Matrix_fits_sample.
  - apply Matrix_fits_sample.
Defined.


(** Addition run through the API from an empty heap, both ways round: the
    sum of [[-1, 2], [3, -4]] and [[1, 2], [3, 4]], and the first operand
    afterwards. *)
Example Matrix_add_scenario :
  fst <$> (let* A := build_2x2 (-1) 2 3 (-4) in
           let* B := build_2x2 1 2 3 4 in
           let* C := Matrix_add A B in
           let* D := Matrix_add B A in
           let* c := read_2x2 C in
           let* d := read_2x2 D in
           let* a := read_2x2 A in
           ret (a, c, d)) (mkState ∅ 0)
  = Some ([[-1; 2]; [3; -4]], [[0; 4]; [6; 0]], [[0; 4]; [6; 0]]).
Proof. vm_compute. reflexivity. Qed.

(** ** Multiplication *)

Lemma shaped_2x2 rows :
  shaped 2 2 rows →
  rows = [[default 0 (entry rows 0 0); default 0 (entry rows 0 1)];
          [default 0 (entry rows 1 0); default 0 (entry rows 1 1)]].
Proof.
  intros [Hn Hc].
  destruct rows as [|r0 [|r1 [|]]]; try done.
  apply Forall_cons in Hc as [H0 Hc]. apply Forall_cons in Hc as [H1 _].
  destruct r0 as [|? [|? [|]]]; try done.
  destruct r1 as [|? [|? [|]]]; try done.
Qed.

Lemma dot_identity_2x2 ma i :
  (∀ j, (j < 2)%nat → is_finite (elem ma i j) = true) →
  ∀ j, (j < 2)%nat →
    (dot ma identity_2x2 2 i j 0 =? elem ma i j) = true.
Proof.
  intros Hfin j Hj. unfold dot. simpl.
  destruct j as [|[|j]]; [| |lia].
  - change (elem identity_2x2 0 0) with 1%float.
    change (elem identity_2x2 1 0) with 0%float.
    apply identity_col_l; apply Hfin; lia.
  - change (elem identity_2x2 0 1) with 0%float.
    change (elem identity_2x2 1 1) with 1%float.
    apply identity_col_r; apply Hfin; lia.
Qed.

(** C1, as the code has it: on two structs with storage, [Matrix_mult]
    returns [NULL] exactly when [A.nrows == B.ncols && A.ncols == B.nrows]
    fails, and then changes nothing; otherwise it returns a handle that was
    not in use, to a struct of [A.nrows] rows and [B.ncols] columns whose entry
    [(i, j)] is [A[i][0] * B[0][j] + ... + A[i][m-1] * B[m-1][j]] for
    [m = A.ncols], added up in doubles from [0.0] in that order.  This is for
    operands whose dimensions do not exceed [INT_MAX], the range of the loop
    counters.  A 2 by 2 matrix of finite entries times the 2 by 2 identity
    comes back equal entry by entry under [==]; [[1, 2], [3, 4]] comes back
    as [[1, 2], [3, 4]]. *)
Theorem Matrix_mult_spec (s : state) (a b : loc) (ma mb : Matrix)
    (rowsa rowsb : list (list float)) :
  heap s !! a = Some ma → heap s !! b = Some mb →
  stored ma rowsa → stored mb rowsb →
  Matrix_fits ma → Matrix_fits mb →
  ∃ res s',
    Matrix_mult (Some a) (Some b) s = Some (res, s')
    ∧ (res = None ↔ ¬ (nrows ma = ncols mb ∧ ncols ma = nrows mb))
    ∧ (res = None → s' = s)
    ∧ ∀ l, res = Some l →
        heap s !! l = None
        ∧ ∃ mr,
            s' = mkState (<[l := mr]> (heap s)) (errno s)
            ∧ nrows mr = nrows ma ∧ ncols mr = ncols mb
            ∧ Matrix_ok mr
            ∧ (∀ i j, (i < nrows mr)%nat → (j < ncols mr)%nat →
                 entry_of mr i j = Some (dot ma mb (ncols ma) i j 0))
            ∧ (mb = identity_2x2 →
               (∀ i j, (i < 2)%nat → (j < 2)%nat →
                  is_finite (elem ma i j) = true) →
               ∀ i j, (i < 2)%nat → (j < 2)%nat →
                 (elem mr i j =? elem ma i j) = true)
            ∧ (mb = identity_2x2 → rowsa = [[1; 2]; [3; 4]] →
               vals mr = Some [[1; 2]; [3; 4]]).
Proof.
  intros Ha Hb Hsa Hsb Hfa Hfb.
  destruct (decide (nrows ma = ncols mb ∧ ncols ma = nrows mb))
    as [[Hn Hc]|Hd].
  - destruct (Matrix_mult_valid _ _ _ _ _ _ _ Ha Hb Hsa Hsb Hn Hc Hfa)
      as (mr & Hrun & Hnr & Hnc & Hok & Hent).
    assert (heap s !! fresh (dom (heap s)) = None) as Hfresh
      by apply not_elem_of_dom, is_fresh.
    eexists _, _. split; [exact Hrun|]. split_and!.
    + split; [done|]. intros []. done.
    + done.
    + intros l [= <-]. split; [done|]. exists mr.
      split_and!; try done.
      * intros i j Hi Hj. apply Hent; congruence.
      * intros -> Hfin i j Hi Hj. simpl in Hn, Hc.
        unfold elem at 1. rewrite Hent by (simpl; lia). simpl. rewrite Hc.
        apply dot_identity_2x2; [|done]. intros j' Hj'. by apply Hfin.
      * intros -> ->. simpl in Hn, Hc, Hnc.
        destruct Hsa as [Hva Hsa]. unfold Matrix_ok in Hok.
        destruct (vals mr) as [rows|] eqn:Hv; [|lia].
        destruct Hok as (_ & _ & Hs). rewrite Hnr, Hnc, Hn in Hs. simpl in Hs.
        rewrite (shaped_2x2 _ Hs).
        assert (∀ i j, (i < 2)%nat → (j < 2)%nat →
                  entry rows i j = Some (dot ma identity_2x2 2 i j 0)) as He.
        { intros i j Hi Hj. specialize (Hent i j). unfold entry_of in Hent.
          rewrite Hv, Hc in Hent. apply Hent; simpl; lia. }
        rewrite !He by lia. unfold dot, elem, entry_of. rewrite Hva.
        reflexivity.
  - exists None, s. split_and!; try done.
    eapply Matrix_mult_mismatch; [done..|].
    destruct (decide (nrows ma = ncols mb)); [|by left].
    right. intros ?. by apply Hd.
Qed.

Lemma Matrix_mult_spec_witness :
  ∃ res s',
    Matrix_mult (Some 3%positive) (Some 2%positive) sample_state
    = Some (res, s')
    ∧ (res = None ↔ ¬ (nrows B_sample = ncols identity_2x2
                       ∧ ncols B_sample = nrows identity_2x2))
    ∧ (res = None → s' = sample_state)
    ∧ ∀ l, res = Some l →
        heap sample_state !! l = None
        ∧ ∃ mr,
            s' = mkState (<[l := mr]> (heap sample_state)) (errno sample_state)
            ∧ nrows mr = nrows B_sample ∧ ncols mr = ncols identity_2x2
            ∧ Matrix_ok mr
            ∧ (∀ i j, (i < nrows mr)%nat → (j < ncols mr)%nat →
                 entry_of mr i j
                 = Some (dot B_sample identity_2x2 (ncols B_sample) i j 0))
            ∧ (identity_2x2 = identity_2x2 →
               (∀ i j, (i < 2)%nat → (j < 2)%nat →
                  is_finite (elem B_sample i j) = true) →
               ∀ i j, (i < 2)%nat → (j < 2)%nat →
                 (elem mr i j =? elem B_sample i j) = true)
            ∧ (identity_2x2 = identity_2x2 →
               [[1; 2]; [3; 4]] = [[1; 2]; [3; 4]] →
               vals mr = Some [[1; 2]; [3; 4]]).
Proof.
  apply (Matrix_mult_spec sample_state 3%positive 2%positive
           B_sample identity_2x2 [[1; 2]; [3; 4]] [[1; 0]; [0; 1]]).
  - reflexivity.
  - reflexivity.
  - split; [reflexivity|]. split; [reflexivity|]. by repeat constructor.
  - split; [reflexivity|]. split; [reflexivity|]. by repeat constructor.
  - apply Matrix_fits_sample.
  - apply Matrix_fits_sample.
Defined.

(** C1 as first stated promises that any 2 by 2 matrix comes back unchanged
    from a product with the identity.  With an infinite entry it does not:
    [inf * 0.0] is NaN, so slot [(0, 1)] of [[inf, 0], [0, 0]] times the
    identity holds NaN where the operand holds [0.0]. *)
Lemma Matrix_mult_identity_infinity :
  fst <$> (let* A := build_2x2 infinity 0 0 0 in
           let* Id := build_2x2 1 0 0 1 in
           let* P := Matrix_mult A Id in
           let* p := read_2x2 P in
           let* a := read_2x2 A in
           ret (a, p)) (mkState ∅ 0)
  = Some ([[infinity; 0]; [0; 0]], [[infinity; nan]; [0; 0]])
  ∧ (nan =? 0) = false.
Proof. split; vm_compute; reflexivity. Qed.

(** * Further properties of the library *)

(** ** Heaps of well-formed structs *)

Lemma heap_ok_lookup s l m : heap_ok s → heap s !! l = Some m → Matrix_ok m.
Proof. intros Hok Hl. by apply (map_Forall_lookup_1 _ _ _ _ Hok Hl). Qed.

Lemma heap_ok_with s e l m :
  heap_ok s → Matrix_ok m → heap_ok (with_Matrix (heap s) e l m).
Proof. intros Hok Hm. by apply map_Forall_insert_2. Qed.

Lemma heap_ok_errno s e : heap_ok s → heap_ok (mkState (heap s) e).
Proof. done. Qed.

Lemma heap_ok_delete s e l : heap_ok s → heap_ok (mkState (delete l (heap s)) e).
Proof. intros Hok. by apply map_Forall_delete. Qed.

Lemma heap_ok_handle s M : heap_ok s → live_or_null s M → handle_ok s M.
Proof.
  intros Hok. destruct M as [l|]; [|done]. intros [m Hl]. exists m.
  split; [done|]. intros rows Hv.
  by destruct (Matrix_ok_stored m rows (heap_ok_lookup _ _ _ Hok Hl) Hv).
Qed.

Lemma heap_ok_sample : heap_ok sample_state.
Proof.
  unfold heap_ok, sample_state, sample_heap. simpl.
  repeat apply map_Forall_insert_2; try apply map_Forall_empty;
    unfold Matrix_ok; simpl; try (by left);
    (split_and!; [lia|lia|split; [done|by repeat constructor]]).
Qed.

(** ** Heaps of structs an [int] can count *)

Lemma heap_fits_lookup s l m : heap_fits s → heap s !! l = Some m → Matrix_fits m.
Proof. intros Hfit Hl. by apply (map_Forall_lookup_1 _ _ _ _ Hfit Hl). Qed.

Lemma heap_fits_with s e l m :
  heap_fits s → Matrix_fits m → heap_fits (with_Matrix (heap s) e l m).
Proof. intros Hfit Hm. by apply map_Forall_insert_2. Qed.

Lemma heap_fits_delete s e l :
  heap_fits s → heap_fits (mkState (delete l (heap s)) e).
Proof. intros Hfit. by apply map_Forall_delete. Qed.

Lemma heap_fits_handle s M : heap_fits s → handle_fits s M.
Proof.
  intros Hfit. destruct M as [l|]; [|done]. intros m Hl.
  by eapply heap_fits_lookup.
Qed.

Lemma heap_fits_sample : heap_fits sample_state.
Proof.
  unfold heap_fits, sample_state, sample_heap. simpl.
  repeat apply map_Forall_insert_2; try apply map_Forall_empty;
    apply Matrix_fits_sample.
Qed.

Lemma Matrix_fits_init_result r c :
  fits_int r → fits_int c → Matrix_fits (init_result r c).
Proof. by split. Qed.

(** ** The API never leaves the well-formed heaps *)

Lemma deinit_Matrix_live l m s :
  heap s !! l = Some m → Matrix_ok m → fits_int (nrows m) →
  ∃ m', deinit_Matrix (Some l) s
        = Some (tt, with_Matrix (heap s) (errno s) l m')
        ∧ vals m' = None ∧ Matrix_ok m'
        ∧ (nrows m' ≤ nrows m)%nat ∧ (ncols m' ≤ ncols m)%nat.
Proof.
  intros Hl Hok Hfit. destruct (vals m) as [rows|] eqn:Hv.
  - exists (mkMatrix 0 0 None). split_and!; [|done|by left|simpl; lia..].
    eapply deinit_Matrix_storage; [done| |done]. by apply Matrix_ok_stored.
  - exists m. split_and!; [|done..].
    rewrite (deinit_Matrix_no_storage _ _ _ Hl Hv).
    by rewrite <- (state_as_with s l m Hl).
Qed.

Lemma delete_Matrix_ok l m s :
  heap s !! l = Some m → Matrix_ok m → fits_int (nrows m) →
  delete_Matrix (Some l) s = Some (tt, mkState (delete l (heap s)) (errno s)).
Proof.
  intros Hl Hok Hfit. apply (delete_Matrix_live l m s Hl).
  destruct (vals m) as [rows|] eqn:Hv; [right|by left].
  exists rows. split; [by apply Matrix_ok_stored|done].
Qed.

(** X1: in a heap of well-formed structs whose dimensions do not exceed
    [INT_MAX], the four lifecycle functions return on [NULL] and on every
    live handle, for all requested dimensions up to [INT_MAX], and leave
    such a heap again. *)
Theorem lifecycle_keeps_heap_ok (s : state) :
  heap_ok s → heap_fits s →
  (∀ r c, fits_int r → fits_int c →
     ∃ l s', new_Matrix r c s = Some (Some l, s')
             ∧ heap s !! l = None ∧ heap_ok s' ∧ heap_fits s')
  ∧ (∀ M r c, live_or_null s M → fits_int r → fits_int c →
       ∃ s', init_Matrix M r c s = Some (tt, s') ∧ heap_ok s' ∧ heap_fits s')
  ∧ (∀ M, live_or_null s M →
       ∃ s', deinit_Matrix M s = Some (tt, s') ∧ heap_ok s' ∧ heap_fits s')
  ∧ (∀ M, live_or_null s M →
       ∃ s', delete_Matrix M s = Some (tt, s') ∧ heap_ok s' ∧ heap_fits s').
Proof.
  intros Hok Hfit. split_and!.
  - intros r c Hr Hc. destruct (new_Matrix_spec r c s) as [Hfresh Hnew]; [done|].
    eexists _, _. split_and!; [exact Hnew|done| |].
    + apply heap_ok_with; [done|apply Matrix_ok_init_result].
    + apply heap_fits_with; [done|by apply Matrix_fits_init_result].
  - intros [l|] r c; [|by exists s]. intros [m Hl] Hr Hc.
    eexists. split; [by eapply init_Matrix_live|]. split.
    + apply heap_ok_with; [done|apply Matrix_ok_init_result].
    + apply heap_fits_with; [done|by apply Matrix_fits_init_result].
  - intros [l|]; [|by exists s]. intros [m Hl].
    destruct (heap_fits_lookup _ _ _ Hfit Hl) as [Hfn Hfc].
    destruct (deinit_Matrix_live l m s Hl (heap_ok_lookup _ _ _ Hok Hl) Hfn)
      as (m' & Hrun & _ & Hm' & Hn' & Hc').
    eexists. split; [exact Hrun|]. split; [by apply heap_ok_with|].
    apply heap_fits_with; [done|]. split; by eapply fits_int_le.
  - intros [l|]; [|by exists s]. intros [m Hl].
    destruct (heap_fits_lookup _ _ _ Hfit Hl) as [Hfn Hfc].
    eexists. split; [|split].
    + by apply (delete_Matrix_ok l m s Hl (heap_ok_lookup _ _ _ Hok Hl)).
    + by apply (heap_ok_delete s (errno s) l).
    + by apply (heap_fits_delete s (errno s) l).
Qed.

Lemma lifecycle_keeps_heap_ok_witness :
  ∃ s', delete_Matrix (Some 1%positive) sample_state = Some (tt, s')
        ∧ heap_ok s' ∧ heap_fits s'.
Proof.
  apply (lifecycle_keeps_heap_ok sample_state heap_ok_sample heap_fits_sample).
  by exists A_sample.
Defined.

(** X2: in a heap of well-formed structs, [Matrix_get] and [Matrix_put] return
    on [NULL] and on every live handle, for all indices: no index reaches
    memory outside a block.  [Matrix_get] leaves every struct as it is and
    [Matrix_put] leaves a heap of well-formed structs. *)
Theorem access_keeps_heap_ok (s : state) (M : ptr) (i j : nat) (v : float) :
  heap_ok s → live_or_null s M →
  (∃ x s', Matrix_get M i j s = Some (x, s') ∧ heap s' = heap s)
  ∧ (∃ r s', Matrix_put M i j v s = Some (r, s') ∧ heap_ok s'
             ∧ errno s' = errno s ∧ dom (heap s') = dom (heap s)).
Proof.
  intros Hok Hlive. pose proof (heap_ok_handle _ _ Hok Hlive) as Hh. split.
  - destruct (Matrix_get_returns M i j s Hh) as [[x s'] Hget].
    exists x, s'. split; [done|].
    by destruct (Matrix_get_inv _ _ _ _ _ _ Hget) as [(_ & _ & ->)|[_ ->]].
  - destruct M as [l|]; [|by exists 1%Z, s].
    destruct Hlive as [m Hl]. pose proof (heap_ok_lookup _ _ _ Hok Hl) as Hm.
    destruct (guard_cases m i j) as [Hbad|(rows & Hv & Hi & Hj)].
    + exists 1%Z, s. split; [by eapply Matrix_put_invalid|done].
    + eexists _, _. split.
      * eapply Matrix_put_valid; [done|by apply Matrix_ok_stored|done..].
      * split_and!; [|done|].
        -- apply heap_ok_with; [done|by apply Matrix_ok_put_result].
        -- simpl. by apply dom_insert_lookup_L.
Qed.

Lemma access_keeps_heap_ok_witness :
  ∃ r s', Matrix_put (Some 1%positive) 7 7 3 sample_state = Some (r, s')
          ∧ heap_ok s' ∧ errno s' = errno sample_state
          ∧ dom (heap s') = dom (heap sample_state).
Proof.
  apply (access_keeps_heap_ok sample_state (Some 1%positive) 7 7 3 heap_ok_sample).
  by exists A_sample.
Defined.

Lemma Matrix_add_cases a b ma mb s :
  heap s !! a = Some ma → heap s !! b = Some mb →
  Matrix_ok ma → Matrix_ok mb → Matrix_fits ma →
  Matrix_add (Some a) (Some b) s = Some (None, s)
  ∨ ∃ mr, Matrix_add (Some a) (Some b) s
          = Some (Some (fresh (dom (heap s))),
                  with_Matrix (heap s) (errno s) (fresh (dom (heap s))) mr)
          ∧ Matrix_ok mr ∧ Matrix_fits mr.
Proof.
  intros Ha Hb Hma Hmb Hfa.
  destruct (vals ma) as [rowsa|] eqn:Hva;
    [|left; eapply Matrix_add_no_storage; eauto].
  destruct (vals mb) as [rowsb|] eqn:Hvb;
    [|left; eapply Matrix_add_no_storage; eauto].
  destruct (decide (nrows ma = nrows mb ∧ ncols ma = ncols mb)) as [[Hn Hc]|Hd].
  - right.
    destruct (Matrix_add_valid a b ma mb rowsa rowsb s)
      as (mr & Hrun & Hnr & Hnc & Hok & _);
      [done|done|by apply Matrix_ok_stored|by apply Matrix_ok_stored|done..|].
    exists mr. split_and!; [done|done|].
    destruct Hfa. split; congruence.
  - left. eapply Matrix_add_mismatch; [done..|].
    destruct (decide (nrows ma = nrows mb)); [|by left].
    right. intros ?. by apply Hd.
Qed.

Lemma Matrix_mult_cases a b ma mb s :
  heap s !! a = Some ma → heap s !! b = Some mb →
  Matrix_ok ma → Matrix_ok mb → Matrix_fits ma →
  Matrix_mult (Some a) (Some b) s = Some (None, s)
  ∨ ∃ mr, Matrix_mult (Some a) (Some b) s
          = Some (Some (fresh (dom (heap s))),
                  with_Matrix (heap s) (errno s) (fresh (dom (heap s))) mr)
          ∧ Matrix_ok mr ∧ Matrix_fits mr
          ∧ nrows mr = nrows ma ∧ ncols mr = ncols mb
          ∧ nrows ma = ncols mb ∧ ncols ma = nrows mb.
Proof.
  intros Ha Hb Hma Hmb Hfa.
  destruct (vals ma) as [rowsa|] eqn:Hva;
    [|left; eapply Matrix_mult_no_storage; eauto].
  destruct (vals mb) as [rowsb|] eqn:Hvb;
    [|left; eapply Matrix_mult_no_storage; eauto].
  destruct (decide (nrows ma = ncols mb ∧ ncols ma = nrows mb)) as [[Hn Hc]|Hd].
  - right.
    destruct (Matrix_mult_valid a b ma mb rowsa rowsb s)
      as (mr & Hrun & Hnr & Hnc & Hok & _);
      [done|done|by apply Matrix_ok_stored|by apply Matrix_ok_stored|done..|].
    exists mr. split_and!; try done.
    destruct Hfa. split; congruence.
  - left. eapply Matrix_mult_mismatch; [done..|].
    destruct (decide (nrows ma = ncols mb)); [|by left].
    right. intros ?. by apply Hd.
Qed.

(** What the two cases of [Matrix_add_cases] and [Matrix_mult_cases] have in
    common. *)
Lemma fresh_result_frame (s : state) (res : ptr) (s' : state) :
  heap_ok s → heap_fits s →
  (res = None ∧ s' = s)
  ∨ (∃ mr, res = Some (fresh (dom (heap s)))
           ∧ s' = with_Matrix (heap s) (errno s) (fresh (dom (heap s))) mr
           ∧ Matrix_ok mr ∧ Matrix_fits mr) →
  heap_ok s' ∧ heap_fits s' ∧ errno s' = errno s ∧ heap s ⊆ heap s'
  ∧ (res = None → s' = s)
  ∧ (∀ l, res = Some l → heap s !! l = None ∧ is_Some (heap s' !! l)).
Proof.
  intros Hok Hfit [[-> ->]|(mr & -> & -> & Hmr & Hfr)].
  - split_and!; try done.
  - assert (heap s !! fresh (dom (heap s)) = None) as Hfresh
      by apply not_elem_of_dom, is_fresh.
    split_and!; try done.
    + by apply heap_ok_with.
    + by apply heap_fits_with.
    + by apply insert_subseteq.
    + intros l [= <-]. split; [done|]. simpl. rewrite lookup_insert_eq. eauto.
Qed.

(** X3: in a heap of well-formed structs whose dimensions do not exceed
    [INT_MAX], [Matrix_add] and [Matrix_mult] return on every pair of handles
    that are [NULL] or live, and leave such a heap.  They never change
    [errno] and never change or remove a struct of the heap: failure shows in
    the [NULL] result alone, and then the state is untouched; success adds
    one well-formed struct at an address that was free. *)
Theorem arithmetic_keeps_heap_ok (s : state) (A B : ptr) :
  heap_ok s → heap_fits s → live_or_null s A → live_or_null s B →
  (∃ res s',
     Matrix_add A B s = Some (res, s')
     ∧ heap_ok s' ∧ heap_fits s' ∧ errno s' = errno s ∧ heap s ⊆ heap s'
     ∧ (res = None → s' = s)
     ∧ (∀ l, res = Some l → heap s !! l = None ∧ is_Some (heap s' !! l)))
  ∧ (∃ res s',
       Matrix_mult A B s = Some (res, s')
       ∧ heap_ok s' ∧ heap_fits s' ∧ errno s' = errno s ∧ heap s ⊆ heap s'
       ∧ (res = None → s' = s)
       ∧ (∀ l, res = Some l → heap s !! l = None ∧ is_Some (heap s' !! l))).
Proof.
  intros Hok Hfit HA HB.
  destruct A as [a|]; last first.
  { split; exists None, s; (split; [done|]);
      apply fresh_result_frame; auto. }
  destruct B as [b|]; last first.
  { split; exists None, s; (split; [done|]);
      apply fresh_result_frame; auto. }
  destruct HA as [ma Ha], HB as [mb Hb].
  pose proof (heap_ok_lookup _ _ _ Hok Ha) as Hma.
  pose proof (heap_ok_lookup _ _ _ Hok Hb) as Hmb.
  pose proof (heap_fits_lookup _ _ _ Hfit Ha) as Hfa.
  split.
  - destruct (Matrix_add_cases a b ma mb s Ha Hb Hma Hmb Hfa)
      as [Hrun|(mr & Hrun & Hmr & Hfr)]; eexists _, _; (split; [exact Hrun|]);
      apply fresh_result_frame; eauto 10.
  - destruct (Matrix_mult_cases a b ma mb s Ha Hb Hma Hmb Hfa)
      as [Hrun|(mr & Hrun & Hmr & Hfr & _)]; eexists _, _; (split; [exact Hrun|]);
      apply fresh_result_frame; eauto 10.
Qed.

Lemma arithmetic_keeps_heap_ok_witness :
  ∃ res s',
    Matrix_mult (Some 1%positive) (Some 4%positive) sample_state
    = Some (res, s')
    ∧ heap_ok s' ∧ heap_fits s' ∧ errno s' = errno sample_state
    ∧ heap sample_state ⊆ heap s'
    ∧ (res = None → s' = sample_state)
    ∧ (∀ l, res = Some l →
         heap sample_state !! l = None ∧ is_Some (heap s' !! l)).
Proof.
  apply (arithmetic_keeps_heap_ok sample_state (Some 1%positive)
           (Some 4%positive) heap_ok_sample heap_fits_sample).
  - by exists A_sample.
  - by exists empty_sample.
Defined.

(** X4: in a heap of well-formed structs whose dimensions do not exceed
    [INT_MAX], the two norms return on [NULL] and on every live handle, and
    neither changes a struct.  [Matrix_l2], which tests nothing but the
    handle, never reads through a null [vals] there; what it leaves in
    [errno] is up to its calls of [pow] and [sqrt]. *)
Theorem norms_keep_heap (pow : float → float → float)
    (pow_errno : float → float → option Z) (s : state) (A : ptr) :
  heap_ok s → heap_fits s → live_or_null s A →
  (∃ x s', Matrix_l1 A s = Some (x, s') ∧ heap s' = heap s)
  ∧ (∃ x s', Matrix_l2 pow pow_errno A s = Some (x, s') ∧ heap s' = heap s).
Proof.
  intros Hok Hfit Hlive. split.
  - destruct (Matrix_l1_returns A s (heap_ok_handle _ _ Hok Hlive)
                (heap_fits_handle _ _ Hfit))
      as [[x s'] Hrun].
    exists x, s'. split; [done|].
    by destruct (Matrix_l1_inv _ _ _ _ Hrun) as [(_ & _ & ->)|[_ ->]].
  - destruct A as [a|]; [|by exists 0%float, s].
    destruct Hlive as [m Ha]. pose proof (heap_ok_lookup _ _ _ Hok Ha) as Hm.
    pose proof (heap_fits_lookup _ _ _ Hfit Ha) as Hfm.
    destruct (vals m) as [rows|] eqn:Hv.
    + destruct (Matrix_l2_valid pow pow_errno a m rows s) as (s' & Hrun & Hs');
        [done|by apply Matrix_ok_stored|done|].
      by eexists _, _.
    + exists 0%float, s. split; [|done].
      eapply Matrix_l2_no_storage; [done| |apply Hfm].
      unfold Matrix_ok in Hm. by rewrite Hv in Hm.
Qed.

Lemma norms_keep_heap_witness :
  ∃ x s', Matrix_l2 (λ x _, x * x) (λ _ _, None) (Some 1%positive) sample_state
          = Some (x, s')
          ∧ heap s' = heap sample_state.
Proof.
  apply (norms_keep_heap (λ x _, x * x) (λ _ _, None) sample_state
           (Some 1%positive) heap_ok_sample heap_fits_sample).
  by exists A_sample.
Defined.

(** ** Blocks and structs are determined by their entries *)

Lemma shaped_ext n c rows rows' :
  shaped n c rows → shaped n c rows' →
  (∀ i j, (i < n)%nat → (j < c)%nat → entry rows i j = entry rows' i j) →
  rows = rows'.
Proof.
  intros Hs Hs' Hent. apply list_eq. intros i.
  destruct (decide (i < n)%nat) as [Hi|Hi].
  - destruct (shaped_row _ _ _ _ Hs Hi) as (row & Hrow & Hlen).
    destruct (shaped_row _ _ _ _ Hs' Hi) as (row' & Hrow' & Hlen').
    rewrite Hrow, Hrow'. f_equal. apply list_eq. intros j.
    destruct (decide (j < c)%nat) as [Hj|Hj].
    + specialize (Hent i j Hi Hj). unfold entry in Hent.
      by rewrite Hrow, Hrow' in Hent.
    + rewrite !lookup_ge_None_2; [done|lia|lia].
  - destruct Hs as [Hn _], Hs' as [Hn' _].
    rewrite !lookup_ge_None_2; [done|lia|lia].
Qed.

Lemma Matrix_ext m m' :
  Matrix_ok m → Matrix_ok m' →
  nrows m = nrows m' → ncols m = ncols m' →
  (∀ i j, (i < nrows m)%nat → (j < ncols m)%nat →
     entry_of m i j = entry_of m' i j) →
  m = m'.
Proof.
  destruct m as [n c v], m' as [n' c' v']. unfold Matrix_ok, entry_of. simpl.
  intros Hok Hok' <- <- Hent.
  destruct v as [rows|], v' as [rows'|]; try done; try lia.
  destruct Hok as (_ & _ & Hs), Hok' as (_ & _ & Hs').
  by rewrite (shaped_ext _ _ _ _ Hs Hs' Hent).
Qed.

(** ** Addition of doubles commutes *)

Lemma SFadd_comm x y : SF64add x y = SF64add y x.
Proof.
  destruct x as [[]|[]| |sx mx ex], y as [[]|[]| |sy my ey]; try reflexivity.
  unfold SF64add, SFadd. by rewrite Z.min_comm, Z.add_comm.
Qed.

Lemma float_add_comm (x y : float) : x + y = y + x.
Proof.
  apply Prim2SF_inj. rewrite !FloatAxioms.add_spec. apply SFadd_comm.
Qed.

(** ** How the operations compose *)

(** X5: [Matrix_add] is commutative: on handles that are [NULL] or point to
    structs whose storage has the recorded dimensions, [Matrix_add (A, B)]
    and [Matrix_add (B, A)] have the same outcome, the [NULL] results and the
    undefined runs included, and where they return, the same handle and the
    same state, entry for entry as doubles.  All NaNs are one value here: the
    payload of a NaN is not part of the model. *)
Theorem Matrix_add_comm (s : state) (A B : ptr) :
  handle_ok s A → handle_ok s B → Matrix_add A B s = Matrix_add B A s.
Proof.
  intros HA HB.
  destruct A as [a|]; [|by rewrite Matrix_add_null_l, Matrix_add_null_r].
  destruct B as [b|]; [|by rewrite Matrix_add_null_l, Matrix_add_null_r].
  destruct HA as (ma & Ha & Hsa), HB as (mb & Hb & Hsb).
  destruct (vals ma) as [rowsa|] eqn:Hva; last first.
  { rewrite (Matrix_add_no_storage a b ma mb s), (Matrix_add_no_storage b a mb ma s);
      auto. }
  destruct (vals mb) as [rowsb|] eqn:Hvb; last first.
  { rewrite (Matrix_add_no_storage a b ma mb s), (Matrix_add_no_storage b a mb ma s);
      auto. }
  destruct (decide (nrows ma = nrows mb ∧ ncols ma = ncols mb)) as [[Hn Hc]|Hd].
  - destruct (decide ((Z.of_nat (nrows ma) ≤ INT_MAX)%Z
                      ∧ (Z.of_nat (ncols ma) ≤ INT_MAX)%Z)) as [Hfa|Hunfit].
    + assert (Matrix_fits mb) as Hfb by (destruct Hfa; split; congruence).
      destruct (Matrix_add_valid a b ma mb rowsa rowsb s)
        as (mr & -> & Hnr & Hnc & Hok & Hent);
        [done|done|split; auto..|done|done|done|].
      destruct (Matrix_add_valid b a mb ma rowsb rowsa s)
        as (mr' & -> & Hnr' & Hnc' & Hok' & Hent');
        [done|done|split; auto..|done|done|done|].
      do 3 f_equal. apply Matrix_ext; [done|done|congruence|congruence|].
      intros i j Hi Hj. rewrite Hent, Hent' by congruence.
      by rewrite float_add_comm.
    + rewrite (Matrix_add_conformant a b ma mb rowsa rowsb s) by done.
      rewrite (Matrix_add_conformant b a mb ma rowsb rowsa s) by done.
      rewrite <- Hn, <- Hc. by apply fresh_fill_unfit.
  - assert (nrows ma ≠ nrows mb ∨ ncols ma ≠ ncols mb) as Hd'.
    { destruct (decide (nrows ma = nrows mb)); [|by left].
      right. intros ?. by apply Hd. }
    rewrite (Matrix_add_mismatch a b ma mb s), (Matrix_add_mismatch b a mb ma s);
      try done.
    destruct Hd'; [left|right]; congruence.
Qed.

Lemma Matrix_add_comm_witness :
  Matrix_add (Some 1%positive) (Some 3%positive) sample_state
  = Matrix_add (Some 3%positive) (Some 1%positive) sample_state.
Proof.
  apply (Matrix_add_comm sample_state (Some 1%positive) (Some 3%positive)).
  - apply (heap_ok_handle _ _ heap_ok_sample). by exists A_sample.
  - apply (heap_ok_handle _ _ heap_ok_sample). by exists B_sample.
Defined.

(** X6: the shape test of [Matrix_mult] is symmetric in its operands, so on
    two structs with storage, of dimensions up to [INT_MAX], [A * B] is
    [NULL] exactly when [B * A] is; and every product it does return is
    square, of side [A.nrows = B.ncols]. *)
Theorem Matrix_mult_square (s : state) (a b : loc) (ma mb : Matrix)
    (rowsa rowsb : list (list float)) :
  heap s !! a = Some ma → heap s !! b = Some mb →
  stored ma rowsa → stored mb rowsb →
  Matrix_fits ma → Matrix_fits mb →
  ∃ rab sab rba sba,
    Matrix_mult (Some a) (Some b) s = Some (rab, sab)
    ∧ Matrix_mult (Some b) (Some a) s = Some (rba, sba)
    ∧ (rab = None ↔ rba = None)
    ∧ (∀ l, rab = Some l →
         ∃ mr, heap sab !! l = Some mr
               ∧ nrows mr = ncols mr ∧ nrows mr = nrows ma
               ∧ ncols mr = ncols mb)
    ∧ (∀ l, rba = Some l →
         ∃ mr, heap sba !! l = Some mr
               ∧ nrows mr = ncols mr ∧ nrows mr = nrows mb
               ∧ ncols mr = ncols ma).
Proof.
  intros Ha Hb Hsa Hsb Hfa Hfb.
  destruct (decide (nrows ma = ncols mb ∧ ncols ma = nrows mb)) as [[Hn Hc]|Hd].
  - destruct (Matrix_mult_valid a b ma mb rowsa rowsb s)
      as (mr & Hrun & Hnr & Hnc & _); [done..|].
    destruct (Matrix_mult_valid b a mb ma rowsb rowsa s)
      as (mr' & Hrun' & Hnr' & Hnc' & _); [done..|].
    eexists _, _, _, _. split; [exact Hrun|]. split; [exact Hrun'|].
    split_and!; [done| |].
    + intros l [= <-]. exists mr. split; [apply lookup_insert_eq|].
      split_and!; congruence.
    + intros l [= <-]. exists mr'. split; [apply lookup_insert_eq|].
      split_and!; congruence.
  - exists None, s, None, s. split_and!; try done.
    + eapply Matrix_mult_mismatch; [done..|].
      destruct (decide (nrows ma = ncols mb)); [|by left].
      right. intros ?. by apply Hd.
    + eapply Matrix_mult_mismatch; [done..|].
      destruct (decide (nrows mb = ncols ma)); [|by left].
      right. intros ?. apply Hd. split; congruence.
Qed.

Lemma Matrix_mult_square_witness :
  ∃ rab sab rba sba,
    Matrix_mult (Some 1%positive) (Some 3%positive) sample_state
    = Some (rab, sab)
    ∧ Matrix_mult (Some 3%positive) (Some 1%positive) sample_state
      = Some (rba, sba)
    ∧ (rab = None ↔ rba = None)
    ∧ (∀ l, rab = Some l →
         ∃ mr, heap sab !! l = Some mr
               ∧ nrows mr = ncols mr ∧ nrows mr = nrows A_sample
               ∧ ncols mr = ncols B_sample)
    ∧ (∀ l, rba = Some l →
         ∃ mr, heap sba !! l = Some mr
               ∧ nrows mr = ncols mr ∧ nrows mr = nrows B_sample
               ∧ ncols mr = ncols A_sample).
Proof.
  apply (Matrix_mult_square sample_state 1%positive 3%positive A_sample B_sample
           [[-1; 2]; [3; -4]] [[1; 2]; [3; 4]]).
  - reflexivity.
  - reflexivity.
  - split; [reflexivity|]. split; [reflexivity|]. by repeat constructor.
  - split; [reflexivity|]. split; [reflexivity|]. by repeat constructor.
  - apply Matrix_fits_sample.
  - apply Matrix_fits_sample.
Defined.

Lemma update_update_eq n c rows i j v v' :
  shaped n c rows → (i < n)%nat → (j < c)%nat →
  update (update rows i j v) i j v' = update rows i j v'.
Proof.
  intros Hs Hi Hj.
  apply (shaped_ext n c); [by do 2 apply shaped_update|by apply shaped_update|].
  intros i0 j0 _ _. destruct (decide ((i0, j0) = (i, j))) as [[= -> ->]|Hne].
  - rewrite !entry_update_eq; [done|by eapply shaped_entry|].
    eapply shaped_entry; [by apply shaped_update|done..].
  - by rewrite !entry_update_ne.
Qed.

Lemma update_update_ne n c rows i j v i' j' v' :
  shaped n c rows → (i < n)%nat → (j < c)%nat → (i' < n)%nat → (j' < c)%nat →
  (i, j) ≠ (i', j') →
  update (update rows i j v) i' j' v' = update (update rows i' j' v') i j v.
Proof.
  intros Hs Hi Hj Hi' Hj' Hne.
  apply (shaped_ext n c); [by do 2 apply shaped_update..|].
  intros i0 j0 _ _.
  assert (∀ rows0 a b w, shaped n c rows0 → (a < n)%nat → (b < c)%nat →
            entry (update rows0 a b w) a b = Some w) as Heq.
  { intros rows0 a b w Hs0 Ha Hb. apply entry_update_eq. by eapply shaped_entry. }
  destruct (decide ((i0, j0) = (i, j))) as [E1|Hne1];
    destruct (decide ((i0, j0) = (i', j'))) as [E2|Hne2].
  - congruence.
  - injection E1 as -> ->. rewrite (entry_update_ne _ i' j') by done.
    by rewrite !Heq by (try apply shaped_update; done).
  - injection E2 as -> ->. rewrite (entry_update_ne _ i j v) by done.
    by rewrite !Heq by (try apply shaped_update; done).
  - by rewrite !entry_update_ne.
Qed.

Lemma Matrix_put_twice l m rows i j v i' j' v' s :
  heap s !! l = Some m → stored m rows →
  (i < nrows m)%nat → (j < ncols m)%nat →
  (i' < nrows m)%nat → (j' < ncols m)%nat →
  (Matrix_put (Some l) i j v;;; Matrix_put (Some l) i' j' v') s
  = Some (0%Z, with_Matrix (heap s) (errno s) l
                 (mkMatrix (nrows m) (ncols m)
                    (Some (update (update rows i j v) i' j' v')))).
Proof.
  intros Hl Hst Hi Hj Hi' Hj'.
  rewrite (bind_Some _ _ _ _ _ (Matrix_put_valid _ _ _ _ _ v _ Hl Hst Hi Hj)).
  rewrite (Matrix_put_valid l (put_result m rows i j v) (update rows i j v));
    [|apply lookup_insert_eq|by apply stored_put_result|done..].
  unfold with_Matrix, put_result. simpl. by rewrite insert_insert_eq.
Qed.

(** X7: two [Matrix_put] in a row.  At the same index the second value wins:
    the pair is the second call alone, in result and in state.  At two
    different indices, both in range, the order does not matter.  A
    [Matrix_put] that fails changes nothing for the one that follows. *)
Theorem Matrix_put_put (s : state) (M : ptr) (i j i' j' : nat) (v v' : float) :
  handle_ok s M →
  (Matrix_put M i j v;;; Matrix_put M i j v') s = Matrix_put M i j v' s
  ∧ (∀ l m, M = Some l → heap s !! l = Some m →
       (i, j) ≠ (i', j') → ¬ out_of_range m i j → ¬ out_of_range m i' j' →
       (Matrix_put M i j v;;; Matrix_put M i' j' v') s
       = (Matrix_put M i' j' v';;; Matrix_put M i j v) s)
  ∧ (∀ l m, M = Some l → heap s !! l = Some m → out_of_range m i j →
       (Matrix_put M i j v;;; Matrix_put M i' j' v') s
       = Matrix_put M i' j' v' s).
Proof.
  intros HM. destruct M as [l|]; [|by split_and!].
  destruct HM as (m & Hl & Hs). split_and!.
  - destruct (guard_cases m i j) as [Hbad|(rows & Hv & Hi & Hj)].
    + by rewrite (bind_Some _ _ _ _ _ (Matrix_put_invalid _ _ _ _ v _ Hl Hbad)).
    + assert (stored m rows) as Hst by (split; auto).
      rewrite (Matrix_put_twice l m rows i j v i j v' s) by done.
      rewrite (Matrix_put_valid l m rows i j v' s) by done.
      unfold put_result.
      by rewrite (update_update_eq _ _ _ _ _ _ _ (proj2 Hst) Hi Hj).
  - intros ? m' [= <-] Hl' Hne Hok Hok'. simplify_eq.
    destruct (guard_cases m i j) as [?|(rows & Hv & Hi & Hj)]; [done|].
    destruct (guard_cases m i' j') as [?|(rows' & Hv' & Hi' & Hj')]; [done|].
    simplify_eq. assert (stored m rows) as Hst by (split; auto).
    rewrite (Matrix_put_twice l m rows i j v i' j' v' s) by done.
    rewrite (Matrix_put_twice l m rows i' j' v' i j v s) by done.
    by rewrite (update_update_ne _ _ _ _ _ _ _ _ _ (proj2 Hst) Hi Hj Hi' Hj' Hne).
  - intros ? m' [= <-] Hl' Hbad. simplify_eq.
    by rewrite (bind_Some _ _ _ _ _ (Matrix_put_invalid _ _ _ _ v _ Hl Hbad)).
Qed.

Lemma Matrix_put_put_witness :
  (Matrix_put (Some 1%positive) 0 1 5;;; Matrix_put (Some 1%positive) 0 1 6)
    sample_state
  = Matrix_put (Some 1%positive) 0 1 6 sample_state.
Proof.
  apply (Matrix_put_put sample_state (Some 1%positive) 0 1 0 0 5 6).
  apply (heap_ok_handle _ _ heap_ok_sample). by exists A_sample.
Defined.

(** X8: a struct without storage, whether built with a zero dimension or
    released, takes part in no arithmetic: [Matrix_add] and [Matrix_mult]
    return [NULL] with it on either side and change nothing, whatever the
    other operand and whatever the recorded dimensions (the sum of two 0 by 0
    matrices is [NULL] too). *)
Theorem no_storage_no_arithmetic (s : state) (l : loc) (m : Matrix) (B : ptr) :
  heap s !! l = Some m → vals m = None → live_or_null s B →
  Matrix_add (Some l) B s = Some (None, s)
  ∧ Matrix_add B (Some l) s = Some (None, s)
  ∧ Matrix_mult (Some l) B s = Some (None, s)
  ∧ Matrix_mult B (Some l) s = Some (None, s).
Proof.
  intros Hl Hv HB. destruct B as [b|]; [|done].
  destruct HB as [mb Hb]. split_and!.
  - eapply Matrix_add_no_storage; eauto.
  - eapply Matrix_add_no_storage; eauto.
  - eapply Matrix_mult_no_storage; eauto.
  - eapply Matrix_mult_no_storage; eauto.
Qed.

Lemma no_storage_no_arithmetic_witness :
  Matrix_add (Some 4%positive) (Some 4%positive) sample_state
  = Some (None, sample_state)
  ∧ Matrix_add (Some 4%positive) (Some 4%positive) sample_state
    = Some (None, sample_state)
  ∧ Matrix_mult (Some 4%positive) (Some 4%positive) sample_state
    = Some (None, sample_state)
  ∧ Matrix_mult (Some 4%positive) (Some 4%positive) sample_state
    = Some (None, sample_state).
Proof.
  apply (no_storage_no_arithmetic sample_state 4%positive empty_sample
           (Some 4%positive)).
  - reflexivity.
  - reflexivity.
  - by exists empty_sample.
Defined.

(** X9: after [deinit_Matrix] on a well-formed struct of at most [INT_MAX]
    rows, the handle is still live and every access through it fails the
    clean way: [Matrix_get] returns [0.0] with [errno = EINVAL] for all
    indices, [Matrix_put] returns [1] and writes nothing, [Matrix_l1] returns
    [0.0] with [errno = EINVAL] and [Matrix_l2] returns [0.0] in silence.  A
    following [init_Matrix] for at most [INT_MAX] rows makes the handle a
    zero matrix of the requested size again. *)
Theorem deinit_then_use (pow : float → float → float)
    (pow_errno : float → float → option Z) (s : state) (l : loc) (m : Matrix) :
  heap s !! l = Some m → Matrix_ok m → fits_int (nrows m) →
  ∃ s',
    deinit_Matrix (Some l) s = Some (tt, s')
    ∧ is_Some (heap s' !! l) ∧ errno s' = errno s
    ∧ (∀ i j, Matrix_get (Some l) i j s' = Some (0, mkState (heap s') EINVAL))
    ∧ (∀ i j v, Matrix_put (Some l) i j v s' = Some (1%Z, s'))
    ∧ Matrix_l1 (Some l) s' = Some (0, mkState (heap s') EINVAL)
    ∧ Matrix_l2 pow pow_errno (Some l) s' = Some (0, s')
    ∧ (∀ r c, fits_int r →
         init_Matrix (Some l) r c s'
         = Some (tt, mkState (<[l := init_result r c]> (heap s)) (errno s))).
Proof.
  intros Hl Hok Hfit.
  destruct (deinit_Matrix_live l m s Hl Hok Hfit)
    as (m' & Hrun & Hv & Hm' & Hn' & _).
  assert (heap (with_Matrix (heap s) (errno s) l m') !! l = Some m') as Hl'
    by apply lookup_insert_eq.
  eexists. split; [exact Hrun|]. split_and!.
  - by exists m'.
  - done.
  - intros i j. eapply Matrix_get_invalid; [done|by left].
  - intros i j v. eapply Matrix_put_invalid; [done|by left].
  - eapply Matrix_l1_invalid; [done|by left].
  - eapply Matrix_l2_no_storage; [done| |by eapply fits_int_le].
    unfold Matrix_ok in Hm'. by rewrite Hv in Hm'.
  - intros r c Hr. by rewrite init_Matrix_with.
Qed.

Lemma deinit_then_use_witness :
  ∃ s',
    deinit_Matrix (Some 1%positive) sample_state = Some (tt, s')
    ∧ is_Some (heap s' !! 1%positive) ∧ errno s' = errno sample_state
    ∧ (∀ i j, Matrix_get (Some 1%positive) i j s'
              = Some (0, mkState (heap s') EINVAL))
    ∧ (∀ i j v, Matrix_put (Some 1%positive) i j v s' = Some (1%Z, s'))
    ∧ Matrix_l1 (Some 1%positive) s' = Some (0, mkState (heap s') EINVAL)
    ∧ Matrix_l2 (λ x _, x * x) (λ _ _, None) (Some 1%positive) s' = Some (0, s')
    ∧ (∀ r c, fits_int r →
         init_Matrix (Some 1%positive) r c s'
         = Some (tt, mkState (<[1%positive := init_result r c]>
                                (heap sample_state))
                       (errno sample_state))).
Proof.
  apply (deinit_then_use (λ x _, x * x) (λ _ _, None) sample_state 1%positive
           A_sample).
  - reflexivity.
  - apply (heap_ok_lookup sample_state 1%positive); [apply heap_ok_sample|].
    reflexivity.
  - apply Matrix_fits_sample.
Defined.

(** X10: [delete_Matrix] on a live handle to a well-formed struct of at most
    [INT_MAX] rows removes that struct and nothing else, with or without
    storage, and leaves [errno] alone.  The caller's
    handle dangles afterwards: a second [delete_Matrix], a [deinit_Matrix] or
    any access through it is undefined behaviour.  Unlike [deinit_Matrix],
    [delete_Matrix] cannot be repeated. *)
Theorem delete_Matrix_frees (s : state) (l : loc) (m : Matrix) :
  heap s !! l = Some m → Matrix_ok m → fits_int (nrows m) →
  ∃ s',
    delete_Matrix (Some l) s = Some (tt, s')
    ∧ heap s' = delete l (heap s) ∧ errno s' = errno s
    ∧ delete_Matrix (Some l) s' = None
    ∧ deinit_Matrix (Some l) s' = None
    ∧ (∀ i j, Matrix_get (Some l) i j s' = None)
    ∧ (∀ i j v, Matrix_put (Some l) i j v s' = None).
Proof.
  intros Hl Hok Hfit.
  exists (mkState (delete l (heap s)) (errno s)).
  assert (load l (mkState (delete l (heap s)) (errno s)) = None) as Hgone.
  { unfold load. simpl. by rewrite lookup_delete_eq. }
  split_and!; try done.
  - by apply (delete_Matrix_ok l m s Hl).
  - unfold delete_Matrix, deinit_Matrix. apply bind_None. by apply bind_None.
  - unfold deinit_Matrix. by apply bind_None.
  - intros i j. unfold Matrix_get. by apply bind_None.
  - intros i j v. unfold Matrix_put. by apply bind_None.
Qed.

Lemma delete_Matrix_frees_witness :
  ∃ s',
    delete_Matrix (Some 1%positive) sample_state = Some (tt, s')
    ∧ heap s' = delete 1%positive (heap sample_state)
    ∧ errno s' = errno sample_state
    ∧ delete_Matrix (Some 1%positive) s' = None
    ∧ deinit_Matrix (Some 1%positive) s' = None
    ∧ (∀ i j, Matrix_get (Some 1%positive) i j s' = None)
    ∧ (∀ i j v, Matrix_put (Some 1%positive) i j v s' = None).
Proof.
  apply (delete_Matrix_frees sample_state 1%positive A_sample).
  - reflexivity.
  - apply (heap_ok_lookup sample_state 1%positive); [apply heap_ok_sample|].
    reflexivity.
  - apply Matrix_fits_sample.
Defined.





(** ** Signs and zeros of the norms *)

Lemma for_loop_preserves {A} (P : A → Prop) (body : nat → A → comp A)
    (count : nat) :
  (∀ i a s a' s', body i a s = Some (a', s') → P a → P a') →
  ∀ start a s a' s', for_loop start count body a s = Some (a', s') → P a → P a'.
Proof.
  intros Hbody. induction count as [|count IH]; intros start a s a' s' H Ha.
  - by injection H as <- _.
  - simpl in H. apply bind_inv in H as (a1 & s1 & Hb & Hl).
    case_decide; [|done]. eapply IH; [exact Hl|]. by eapply Hbody.
Qed.

Lemma l1_step_unsigned x acc :
  unsigned_SF (Prim2SF acc) → unsigned_SF (Prim2SF (l1_step x acc)).
Proof.
  intros Hacc. change (l1_step x acc) with (acc + abs_c x).
  rewrite add_abs_c by done. rewrite FloatAxioms.add_spec.
  apply SFadd_unsigned; [done|]. rewrite FloatAxioms.abs_spec.
  apply SFabs_unsigned.
Qed.

Lemma unsigned_not_negative x :
  unsigned_SF (Prim2SF x) → (x <? 0) = false ∧ x ≠ (-0)%float.
Proof.
  intros Hx. split.
  - rewrite FloatAxioms.ltb_spec, SF_zero.
    by destruct (Prim2SF x) as [[]|[]| |[] m e].
  - intros ->. by rewrite SF_neg_zero in Hx.
Qed.

Lemma sqrt_not_negative y : (sqrt y <? 0) = false.
Proof.
  rewrite FloatAxioms.ltb_spec, FloatAxioms.sqrt_spec, SF_zero.
  destruct (Prim2SF y) as [[]|[]| |[] m e]; try reflexivity.
  unfold SF64sqrt, SFsqrt.
  destruct (SFsqrt_core_binary prec emax (Z.pos m) e) as [[mz ez] lz].
  pose proof (binary_round_aux_unsigned mz ez lz) as Hu.
  by destruct (binary_round_aux prec emax false mz ez lz) as [[]|[]| |[] m' e'].
Qed.

(** X12: the norms are never negative.  Whenever [Matrix_l1] returns, its
    result is NaN or has a clear sign bit: it is not below zero and it is not
    [-0.0], whatever the entries.  Whenever [Matrix_l2] returns, its result is
    not below zero, whatever [pow] computes. *)
Theorem norms_never_negative (pow : float → float → float)
    (pow_errno : float → float → option Z) (A : ptr)
    (s : state) (x : float) (s' : state) :
  (Matrix_l1 A s = Some (x, s') → (x <? 0) = false ∧ x ≠ (-0)%float)
  ∧ (Matrix_l2 pow pow_errno A s = Some (x, s') → (x <? 0) = false).
Proof.
  split.
  - intros H. apply unsigned_not_negative.
    destruct A as [a|]; [|by injection H as <- _].
    unfold Matrix_l1 in H.
    apply bind_inv in H as (m & s1 & [Hl ->]%load_inv & H).
    destruct (_ || _) in H; [by injection H as <- _|].
    eapply (for_loop_preserves (λ y, unsigned_SF (Prim2SF y))); [|exact H|done].
    intros i acc s1 acc' s2 Hin Hacc.
    eapply (for_loop_preserves (λ y, unsigned_SF (Prim2SF y)));
      [|exact Hin|done].
    intros j acc1 s3 acc2 s4 Hb Hacc1.
    apply bind_inv in Hb as (y & s5 & _ & Hr). injection Hr as <- _.
    by apply l1_step_unsigned.
  - intros H. destruct A as [a|]; [|by injection H as <- _].
    unfold Matrix_l2 in H.
    apply bind_inv in H as (m & s1 & _ & H).
    apply bind_inv in H as (y & s2 & _ & H). injection H as <- _.
    apply sqrt_not_negative.
Qed.

Lemma norms_never_negative_witness : (10 <? 0) = false ∧ 10 ≠ (-0)%float.
Proof.
  apply (proj1 (norms_never_negative (λ x _, x * x) (λ _ _, None)
                  (Some 1%positive) sample_state 10 sample_state)).
  reflexivity.
Defined.

Lemma sum_abs_zeros xs : Forall (λ x, x = 0%float) xs → sum_abs xs = 0%float.
Proof.
  unfold sum_abs. induction 1 as [|x xs -> _ IH]; [done|]. exact IH.
Qed.

Lemma sum_squares_zeros pow xs :
  pow 0 2 = 0%float → Forall (λ x, x = 0%float) xs →
  sum_squares pow xs = 0%float.
Proof.
  intros Hp. unfold sum_squares. induction 1 as [|x xs -> _ IH]; [done|].
  simpl. rewrite Hp. exact IH.
Qed.

Lemma concat_zeros r c : Forall (λ x, x = 0%float) (concat (zeros r c)).
Proof.
  apply Forall_concat. apply Forall_replicate. by apply Forall_replicate.
Qed.

(** X13: a matrix fresh from [new_Matrix] has norm zero.  For all dimensions
    up to [INT_MAX], [Matrix_l2] returns [0.0] on it (given that
    [pow (0.0, 2)] is [0.0] and writes no [errno]), and for positive ones
    [Matrix_l1] returns [0.0]; neither touches [errno] in these cases. *)
Theorem norms_of_new_Matrix (pow : float → float → float)
    (pow_errno : float → float → option Z) (r c : nat) (s : state) :
  fits_int r → fits_int c →
  pow 0 2 = 0%float → pow_errno 0%float 2%float = None →
  ∃ l s',
    new_Matrix r c s = Some (Some l, s')
    ∧ Matrix_l2 pow pow_errno (Some l) s' = Some (0, s')
    ∧ ((0 < r)%nat → (0 < c)%nat → Matrix_l1 (Some l) s' = Some (0, s')).
Proof.
  intros Hfr Hfc Hp Hq. destruct (new_Matrix_spec r c s) as [_ Hnew]; [done|].
  eexists _, _. split; [exact Hnew|].
  assert (∀ m, heap (with_Matrix (heap s) (errno s) (fresh (dom (heap s))) m)
               !! fresh (dom (heap s)) = Some m) as Hl
    by (intros; apply lookup_insert_eq).
  split.
  - destruct (decide (r = 0%nat ∨ c = 0%nat)) as [Hz|Hnz].
    + rewrite (init_result_empty _ _ Hz).
      eapply Matrix_l2_no_storage; [apply Hl|done..].
    + rewrite init_result_zeros by lia.
      rewrite (Matrix_l2_quiet pow pow_errno _ _ (zeros r c) _ (Hl _)).
      * rewrite (sum_squares_zeros pow _ Hp (concat_zeros r c)). reflexivity.
      * by split; [|apply shaped_zeros].
      * by split.
      * intros x Hx.
        pose proof (concat_zeros r c) as Hall.
        rewrite Forall_forall in Hall. by rewrite (Hall x Hx).
      * by rewrite (sum_squares_zeros pow _ Hp (concat_zeros r c)).
  - intros Hr Hc. rewrite init_result_zeros by done.
    rewrite (Matrix_l1_valid _ _ (zeros r c) _ (Hl _));
      [|by split; [|apply shaped_zeros]|by split|done..].
    by rewrite (sum_abs_zeros _ (concat_zeros r c)).
Qed.

Lemma norms_of_new_Matrix_witness :
  ∃ l s',
    new_Matrix 3 2 sample_state = Some (Some l, s')
    ∧ Matrix_l2 (λ x _, x * x) (λ _ _, None) (Some l) s' = Some (0, s')
    ∧ ((0 < 3)%nat → (0 < 2)%nat → Matrix_l1 (Some l) s' = Some (0, s')).
Proof.
  apply (norms_of_new_Matrix (λ x _, x * x) (λ _ _, None) 3 2 sample_state);
    try reflexivity; unfold fits_int, INT_MAX; lia.
Defined.
